(** * Media scheduler bot (index.js): shallow embedding and verified properties

    The bot keeps two media pools ([videos], [images]), a registry of
    per-chat schedules ([scheduleData], persisted in schedules.json), the
    live timer handles ([schedules]) and a per-chat set of already sent
    positions ([sentMediaTracking]).  The global variables of index.js become
    one [state] record that every handler receives and returns; what a
    handler does to the outside world (replies, files written, media sent)
    is appended to the [log] of that record. *)

From stdpp Require Import gmap strings list sorting.

Open Scope Z_scope.

(** ** Data model *)

(** A media entry as stored in videos.json / images.json. *)
Record media := Media {
  media_id : string;      (* id: Telegram file_id *)
  media_type : string;    (* type: 'video' or 'image' *)
  caption : string;
  addedAt : string        (* ISO timestamp *)
}.

(** A JavaScript object holding a media entry.  [addr] is the identity of
    the object: [===] and [Array.prototype.indexOf] compare objects by
    identity, not by content.  Entries are never mutated after creation, so
    the fields travel with the address. *)
Record mediaObj := Obj { addr : nat; fields : media }.

(** The value stored under each chat id in schedules.json. *)
Record schedule_entry := Entry {
  interval : Z;
  mediaType : string;
  createdAt : string
}.

(** A job of node-schedule created by [schedule.scheduleJob]: the values its
    callback closes over, and whether [cancel()] has been called on it. *)
Record job := Job {
  job_chat : string;
  job_interval : Z;
  job_mediaType : string;
  cancelled : bool
}.

#[global] Instance media_eq_dec : EqDecision media.
Proof. solve_decision. Defined.
#[global] Instance mediaObj_eq_dec : EqDecision mediaObj.
Proof. solve_decision. Defined.
#[global] Instance schedule_entry_eq_dec : EqDecision schedule_entry.
Proof. solve_decision. Defined.
#[global] Instance job_eq_dec : EqDecision job.
Proof. solve_decision. Defined.

(** ** Math.random *)

(** One result of [Math.random()]: a number in the half-open unit interval,
    kept as the fraction [num / (num + gap + 1)], so that every value of the
    type is below one. *)
Record sample := Sample { num : nat; gap : nat }.

(** [Math.floor(Math.random() * length)]. *)
Definition random_index (r : sample) (length : nat) : nat :=
  ((num r * length) / (num r + gap r + 1))%nat.

(** ** The delivery tracker *)

(** [mediaList.filter((media, index) => keep(index))], the callback seeing
    positions from [index] on. *)
Fixpoint filter_index {A} (keep : nat → bool) (index : nat) (l : list A) : list A :=
  match l with
  | [] => []
  | x :: l' =>
      if keep index then x :: filter_index keep (S index) l'
      else filter_index keep (S index) l'
  end.

(** [mediaList.indexOf(v)]: the first position holding the very same object,
    or -1.  [None] stands for [undefined], which no pool entry equals. *)
Definition indexOf (mediaList : list mediaObj) (v : option mediaObj) : Z :=
  match v with
  | None => -1
  | Some m =>
      match list_find (λ x, addr x = addr m) mediaList with
      | Some (i, _) => Z.of_nat i
      | None => -1
      end
  end.

(** The set recorded for a chat; a chat without a set has sent nothing. *)
Definition sent_of (chatId : string) (t : gmap string (gset Z)) : gset Z :=
  default ∅ (t !! chatId).

(** [getNextUnsentMedia(chatId, mediaList)], with the result of the one call
    to [Math.random()] it makes passed as [r].  Returns the updated
    [sentMediaTracking] and the selected entry ([None] for [undefined]). *)
Definition getNextUnsentMedia (chatId : string) (mediaList : list mediaObj)
    (r : sample) (sentMediaTracking : gmap string (gset Z))
  : gmap string (gset Z) * option mediaObj :=
  (* if (!sentMediaTracking[chatId]) sentMediaTracking[chatId] = new Set() *)
  let sent := sent_of chatId sentMediaTracking in
  let unsentMedia :=
    filter_index (λ index, bool_decide (Z.of_nat index ∉ sent)) 0 mediaList in
  if (length unsentMedia =? 0)%nat then
    (* sentMediaTracking[chatId].clear(); return a random item of the list *)
    (<[chatId := ∅]> sentMediaTracking,
     mediaList !! random_index r (length mediaList))
  else
    let selectedMedia := unsentMedia !! random_index r (length unsentMedia) in
    let index := indexOf mediaList selectedMedia in
    (<[chatId := sent ∪ {[index]}]> sentMediaTracking, selectedMedia).

(** Successive draws for one chat from an unchanged list, one random sample
    per draw; the selections come out in the order they were made. *)
Fixpoint draws (rs : list sample) (chatId : string) (mediaList : list mediaObj)
    (t : gmap string (gset Z)) : gmap string (gset Z) * list (option mediaObj) :=
  match rs with
  | [] => (t, [])
  | r :: rs' =>
      let '(t1, x) := getNextUnsentMedia chatId mediaList r t in
      let '(t2, xs) := draws rs' chatId mediaList t1 in
      (t2, x :: xs)
  end.

(** ** Program state and effects *)

(** The fixed messages passed to [ctx.reply]; the comment gives the start of
    the text. *)
Inductive reply :=
  | OnlyAdminVideos            (* 'Only admin can add videos.' *)
  | OnlyAdminImages            (* 'Only admin can add images.' *)
  | NotAuthorized              (* 'You are not authorized to use this command.' *)
  | VideoExists (added : string)   (* 'This video already exists in the collection!...' *)
  | ImageExists (added : string)   (* 'This image already exists in the collection!...' *)
  | VideoAdded                 (* 'Video added successfully!...' *)
  | ImageAdded                 (* 'Image added successfully!...' *)
  | InvalidDeleteCommand       (* 'Invalid command. Use the delete links provided in ...' *)
  | InvalidMediaIndex          (* 'Invalid video index. ...' / 'Invalid image index. ...' *)
  | MediaDeleted               (* 'Video deleted successfully!' / 'Image deleted successfully!' *)
  | NothingToDelete            (* 'No videos to delete.' / 'No images to delete.' *)
  | PleaseSpecify              (* 'Please specify videos to delete. Examples:...' *)
  | InvalidRange               (* 'Invalid range. Please check the indices and try again.' *)
  | InvalidRangeFormat         (* 'Invalid range format. Use: ...' *)
  | InvalidIndices             (* 'One or more indices are invalid. ...' *)
  | InvalidIndex               (* 'Invalid index. Please check and try again.' *)
  | InvalidFormat              (* 'Invalid format. Examples:...' *)
  | DeletedCount (n : nat)     (* 'Successfully deleted ' + n + ' video(s)!' *)
  | GroupsOnly                 (* 'This command is meant to be used in groups ...' *)
  | NoMediaAvailable           (* 'No media available. Please ask the admin ...' *)
  | AskMediaType               (* 'What type of media would you like to receive?...' *)
  | AskInterval                (* 'Please specify the interval in minutes ...' *)
  | Scheduled (mediaType : string) (interval : Z)  (* 'Scheduled! I will send ...' *)
  | AskValidNumber             (* 'Please enter a valid number for the interval ...' *)
  | Stopped                    (* 'Stopped scheduled media sending.' *)
  | NothingScheduled.          (* 'No scheduled media sending found for this group.' *)

(** What the process does to the outside world. *)
Inductive event :=
  | Reply (r : reply)                                   (* ctx.reply *)
  | SendVideo (chatId file_id cap : string)            (* bot.telegram.sendVideo *)
  | SendPhoto (chatId file_id cap : string)            (* bot.telegram.sendPhoto *)
  | WriteVideos (snapshot : list media)                 (* fs.writeJsonSync(videosFile, ..) *)
  | WriteImages (snapshot : list media)                 (* fs.writeJsonSync(imagesFile, ..) *)
  | WriteSchedules (snapshot : gmap string schedule_entry)
  | Thrown.                                             (* an uncaught TypeError *)

(** The module-level variables of index.js, the three data files, the jobs
    held by node-schedule, the telegraf session store and the log of
    effects.  A timer handle in [schedules] is the position of its job in
    [jobs]. *)
Record state := State {
  videos : list mediaObj;
  images : list mediaObj;
  schedules : gmap string nat;
  scheduleData : gmap string schedule_entry;
  sentMediaTracking : gmap string (gset Z);
  sessions : gmap string string;
  jobs : list job;
  next_addr : nat;
  videosFile : list media;
  imagesFile : list media;
  schedulesFile : gmap string schedule_entry;
  log : list event
}.

Definition set_videos (v : list mediaObj) (s : state) : state :=
  State v (images s) (schedules s) (scheduleData s) (sentMediaTracking s)
    (sessions s) (jobs s) (next_addr s) (videosFile s) (imagesFile s)
    (schedulesFile s) (log s).
Definition set_images (v : list mediaObj) (s : state) : state :=
  State (videos s) v (schedules s) (scheduleData s) (sentMediaTracking s)
    (sessions s) (jobs s) (next_addr s) (videosFile s) (imagesFile s)
    (schedulesFile s) (log s).
Definition set_schedules (v : gmap string nat) (s : state) : state :=
  State (videos s) (images s) v (scheduleData s) (sentMediaTracking s)
    (sessions s) (jobs s) (next_addr s) (videosFile s) (imagesFile s)
    (schedulesFile s) (log s).
Definition set_scheduleData (v : gmap string schedule_entry) (s : state) : state :=
  State (videos s) (images s) (schedules s) v (sentMediaTracking s)
    (sessions s) (jobs s) (next_addr s) (videosFile s) (imagesFile s)
    (schedulesFile s) (log s).
Definition set_sentMediaTracking (v : gmap string (gset Z)) (s : state) : state :=
  State (videos s) (images s) (schedules s) (scheduleData s) v
    (sessions s) (jobs s) (next_addr s) (videosFile s) (imagesFile s)
    (schedulesFile s) (log s).
Definition set_sessions (v : gmap string string) (s : state) : state :=
  State (videos s) (images s) (schedules s) (scheduleData s)
    (sentMediaTracking s) v (jobs s) (next_addr s) (videosFile s)
    (imagesFile s) (schedulesFile s) (log s).
Definition set_jobs (v : list job) (s : state) : state :=
  State (videos s) (images s) (schedules s) (scheduleData s)
    (sentMediaTracking s) (sessions s) v (next_addr s) (videosFile s)
    (imagesFile s) (schedulesFile s) (log s).
Definition set_next_addr (v : nat) (s : state) : state :=
  State (videos s) (images s) (schedules s) (scheduleData s)
    (sentMediaTracking s) (sessions s) (jobs s) v (videosFile s)
    (imagesFile s) (schedulesFile s) (log s).
Definition set_videosFile (v : list media) (s : state) : state :=
  State (videos s) (images s) (schedules s) (scheduleData s)
    (sentMediaTracking s) (sessions s) (jobs s) (next_addr s) v
    (imagesFile s) (schedulesFile s) (log s).
Definition set_imagesFile (v : list media) (s : state) : state :=
  State (videos s) (images s) (schedules s) (scheduleData s)
    (sentMediaTracking s) (sessions s) (jobs s) (next_addr s) (videosFile s)
    v (schedulesFile s) (log s).
Definition set_schedulesFile (v : gmap string schedule_entry) (s : state) : state :=
  State (videos s) (images s) (schedules s) (scheduleData s)
    (sentMediaTracking s) (sessions s) (jobs s) (next_addr s) (videosFile s)
    (imagesFile s) v (log s).

(** Append one effect to the log. *)
Definition emit (e : event) (s : state) : state :=
  State (videos s) (images s) (schedules s) (scheduleData s)
    (sentMediaTracking s) (sessions s) (jobs s) (next_addr s) (videosFile s)
    (imagesFile s) (schedulesFile s) (log s ++ [e]).

(** [saveVideos()], [saveImages()], [saveScheduleData()]: the whole
    collection is serialised, so the file holds the entries without their
    object identities. *)
Definition saveVideos (s : state) : state :=
  let snapshot := fields <$> videos s in
  emit (WriteVideos snapshot) (set_videosFile snapshot s).
Definition saveImages (s : state) : state :=
  let snapshot := fields <$> images s in
  emit (WriteImages snapshot) (set_imagesFile snapshot s).
Definition saveScheduleData (s : state) : state :=
  emit (WriteSchedules (scheduleData s)) (set_schedulesFile (scheduleData s) s).

(** ** node-schedule *)

(** [job.cancel()] on the job behind handle [h]. *)
Definition cancel_job (h : nat) (s : state) : state :=
  set_jobs (alter (λ j, Job (job_chat j) (job_interval j) (job_mediaType j) true) h (jobs s)) s.

(** The rule [{ minute: new schedule.Range(0, 59, interval) }].  The range
    keeps [interval || 1] as its step.  With step 1 it contains every minute
    of the hour; with a larger step it contains the minutes 0, step,
    2*step, ... that are below 59; counting from 0 by a negative step
    meets minute 0 and no other.  A cancelled job is never invoked again.
    [minute] counts the minutes of the clock. *)
Definition fires (minute : Z) (j : job) : bool :=
  let step := if job_interval j =? 0 then 1 else job_interval j in
  let val := minute `mod` 60 in
  negb (cancelled j) &&
  (if step =? 1 then true
   else if 0 <? step then (val <? 59) && (val `mod` step =? 0)
   else val =? 0).

(** The jobs of a chat that node-schedule will still invoke. *)
Definition active_jobs (chatId : string) (s : state) : list job :=
  filter (λ j, job_chat j = chatId ∧ cancelled j = false) (jobs s).

(** ** The scheduler *)

(** The candidate list of a tick: the [switch (mediaType)] of the job
    callback, which has no default case. *)
Definition mediaToSend (mediaType : string) (s : state) : list mediaObj :=
  if decide (mediaType = "videos") then videos s
  else if decide (mediaType = "images") then images s
  else if decide (mediaType = "mix") then videos s ++ images s
  else [].

(** The callback given to [schedule.scheduleJob]: one tick of job [j], with
    [r] the random sample used if a selection is made.  A failed send is
    caught and logged by the [.catch] handlers and changes nothing. *)
Definition job_callback (j : job) (r : sample) (s : state) : state :=
  let chatId := job_chat j in
  let mediaToSend := mediaToSend (job_mediaType j) s in
  if (0 <? length mediaToSend)%nat then
    let '(t, randomMedia) :=
      getNextUnsentMedia chatId mediaToSend r (sentMediaTracking s) in
    let s1 := set_sentMediaTracking t s in
    match randomMedia with
    | None => emit Thrown s1                 (* randomMedia.type on undefined *)
    | Some m =>
        if decide (media_type (fields m) = "video") then
          emit (SendVideo chatId (media_id (fields m)) (caption (fields m))) s1
        else if decide (media_type (fields m) = "image") then
          emit (SendPhoto chatId (media_id (fields m)) (caption (fields m))) s1
        else s1
    end
  else s.                                    (* 'No media to send for chat' *)

(** One clock minute passes: node-schedule invokes every job whose rule
    matches, job number [h] drawing the sample [rnd h]. *)
Fixpoint run_due (minute : Z) (rnd : nat → sample) (h : nat) (js : list job)
    (s : state) : state :=
  match js with
  | [] => s
  | j :: js' =>
      run_due minute rnd (S h) js'
        (if fires minute j then job_callback j (rnd h) s else s)
  end.

Definition elapse_minute (minute : Z) (rnd : nat → sample) (s : state) : state :=
  run_due minute rnd 0 (jobs s) s.

(** Any number of minutes passing, each with its own random samples. *)
Definition elapse (ms : list (Z * (nat → sample))) (s : state) : state :=
  foldl (λ s m, elapse_minute m.1 m.2 s) s ms.

(** [createScheduledJob(chatId, interval, mediaType)]; [now] is the value of
    [new Date().toISOString()] read by the call. *)
Definition createScheduledJob (chatId : string) (interval : Z)
    (mediaType : string) (now : string) (s : state) : state :=
  (* if (schedules[chatId]) schedules[chatId].cancel() *)
  let s1 := match schedules s !! chatId with
            | Some h => cancel_job h s
            | None => s
            end in
  (* const job = schedule.scheduleJob(...) *)
  let h := length (jobs s1) in
  let s2 := set_jobs (jobs s1 ++ [Job chatId interval mediaType false]) s1 in
  let s3 := set_schedules (<[chatId := h]> (schedules s2)) s2 in
  let s4 := set_scheduleData
              (<[chatId := Entry interval mediaType now]> (scheduleData s3)) s3 in
  saveScheduleData s4.

(** ** Telegram updates *)

(** What the handlers read from [ctx]: [ctx.isAdmin] as set by the first
    middleware, [ctx.chat.id] (as the property key it is used as),
    [ctx.chat.type], and the key under which telegraf files the session. *)
Record context := Ctx {
  isAdmin : bool;
  chat_id : string;
  chat_type : string;
  session_key : string
}.

(** The first middleware: [ctx.from && ctx.from.id.toString() === ADMIN_ID]. *)
Definition admin_check (ADMIN_ID : string) (from_id : option string) : bool :=
  match from_id with
  | Some i => bool_decide (i = ADMIN_ID)
  | None => false
  end.

(** [pool.push({ id, type, caption, addedAt })]: the literal is a new object. *)
Definition new_object (m : media) (s : state) : mediaObj * state :=
  (Obj (next_addr s) m, set_next_addr (S (next_addr s)) s).

(** [bot.on('video')]; [videoId] is [ctx.message.video.file_id], [cap] is
    [ctx.message.caption] when present. *)
Definition on_video (ctx : context) (videoId : string) (cap : option string)
    (now : string) (s : state) : state :=
  if negb (isAdmin ctx) then emit (Reply OnlyAdminVideos) s
  else
    let caption := default EmptyString cap in
    match list_find (λ video, media_id (fields video) = videoId) (videos s) with
    | Some (_, existingVideo) =>
        emit (Reply (VideoExists (addedAt (fields existingVideo)))) s
    | None =>
        let '(o, s1) := new_object (Media videoId "video" caption now) s in
        let s2 := set_videos (videos s1 ++ [o]) s1 in
        emit (Reply VideoAdded) (saveVideos s2)
    end.

(** [bot.on('photo')]; [photos] are the file ids of [ctx.message.photo], the
    last one being the largest size. *)
Definition on_photo (ctx : context) (photos : list string) (cap : option string)
    (now : string) (s : state) : state :=
  if negb (isAdmin ctx) then emit (Reply OnlyAdminImages) s
  else
    match last photos with
    | None => emit Thrown s        (* photos[-1].file_id on an empty array *)
    | Some photoId =>
        let caption := default EmptyString cap in
        match list_find (λ image, media_id (fields image) = photoId) (images s) with
        | Some (_, existingImage) =>
            emit (Reply (ImageExists (addedAt (fields existingImage)))) s
        | None =>
            let '(o, s1) := new_object (Media photoId "image" caption now) s in
            let s2 := set_images (images s1 ++ [o]) s1 in
            emit (Reply ImageAdded) (saveImages s2)
        end
    end.

(** [pool.splice(index, 1)]: the pool without the element at [index], and
    the removed element ([splice(..)[0]]).  A negative start counts from the
    end, one past the end removes nothing. *)
Definition splice1 {A} (index : Z) (pool : list A) : list A * option A :=
  let len := Z.of_nat (length pool) in
  let start := if index <? 0 then Z.max (len + index) 0 else Z.min index len in
  (delete (Z.to_nat start) pool, pool !! Z.to_nat start).

(** Numbers read by [parseInt]: [None] is [NaN], for which every comparison
    is false and which [splice] takes as 0. *)
Definition js_lt (a b : option Z) : bool :=
  match a, b with Some x, Some y => x <? y | _, _ => false end.
Definition js_le (a b : option Z) : bool :=
  match a, b with Some x, Some y => x <=? y | _, _ => false end.
Definition to_integer (a : option Z) : Z := default 0 a.
Definition js_pred (a : option Z) : option Z := (λ x, x - 1) <$> a.

(** The body shared by [bot.command('deletevideo')] and
    [bot.command('deleteimage')] once the pool is chosen.  [wellformed] is
    [parts.length === 2 && !isNaN(parts[1])] for
    [parts = ctx.message.text.split('_')] and [index] is
    [parseInt(parts[1])].  Returns the new pool, or the refusal. *)
Definition delete_one {A} (wellformed : bool) (index : option Z) (pool : list A)
  : reply + list A :=
  if negb wellformed then inl InvalidDeleteCommand
  else
    let len := Some (Z.of_nat (length pool)) in
    if js_lt index (Some 0) || js_le len index then inl InvalidMediaIndex
    else inr (splice1 (to_integer index) pool).1.

Definition deletevideo (ctx : context) (wellformed : bool) (index : option Z)
    (s : state) : state :=
  if negb (isAdmin ctx) then emit (Reply NotAuthorized) s
  else
    match delete_one wellformed index (videos s) with
    | inl r => emit (Reply r) s
    | inr pool => emit (Reply MediaDeleted) (saveVideos (set_videos pool s))
    end.

Definition deleteimage (ctx : context) (wellformed : bool) (index : option Z)
    (s : state) : state :=
  if negb (isAdmin ctx) then emit (Reply NotAuthorized) s
  else
    match delete_one wellformed index (images s) with
    | inl r => emit (Reply r) s
    | inr pool => emit (Reply MediaDeleted) (saveImages (set_images pool s))
    end.

(** What [bot.command('deletevideos')] and [bot.command('deleteimages')] see
    of [text], the trimmed rest of the message, through [includes], [split],
    [isNaN] and [parseInt]. *)
Inductive delete_args :=
  | NoText                                  (* !text *)
  | RangeText (wellformed : bool) (first last : option Z)
      (* text.includes('-'); wellformed is
         range.length === 2 && !isNaN(range[0]) && !isNaN(range[1]),
         first and last are parseInt(range[0]) and parseInt(range[1]) *)
  | ListText (indices : list (option Z))
      (* text.includes(','); parseInt(index.trim()) of every piece *)
  | NumberText (n : option Z)               (* !isNaN(text); parseInt(text) *)
  | OtherText.

(** [idx >= 0 && idx < pool.length] *)
Definition in_range (len : nat) (idx : option Z) : bool :=
  js_le (Some 0) idx && js_lt idx (Some (Z.of_nat len)).

(** The construction of [indicesToDelete] (0-based), or the refusal. *)
Definition indicesToDelete (len : nat) (args : delete_args) : reply + list Z :=
  match args with
  | NoText => inl PleaseSpecify
  | RangeText wellformed first last =>
      if wellformed then
        let start := js_pred first in
        let end_ := js_pred last in
        if js_le (Some 0) start && js_lt end_ (Some (Z.of_nat len))
           && js_le start end_ then
          (* for (let i = start; i <= end; i++) indicesToDelete.push(i) *)
          inr (seqZ (to_integer start) (to_integer end_ - to_integer start + 1))
        else inl InvalidRange
      else inl InvalidRangeFormat
  | ListText indices =>
      let pushed :=
        omap (λ index, let idx := js_pred index in
                       if in_range len idx then idx else None) indices in
      if bool_decide (length pushed ≠ length indices) then inl InvalidIndices
      else inr pushed
  | NumberText n =>
      let index := js_pred n in
      if in_range len index then inr [to_integer index] else inl InvalidIndex
  | OtherText => inl InvalidFormat
  end.

(** The order produced by [indicesToDelete.sort((a, b) => b - a)]. *)
Definition desc (a b : Z) : Prop := b ≤ a.

#[global] Instance desc_dec : RelDecision desc.
Proof. intros a b. unfold desc. apply _. Defined.

Definition sort_descending (indices : list Z) : list Z :=
  merge_sort desc indices.

(** [for (const index of indicesToDelete) deleted.push(pool.splice(index, 1)[0])] *)
Fixpoint delete_each {A} (indices : list Z) (pool : list A)
  : list A * list (option A) :=
  match indices with
  | [] => (pool, [])
  | index :: rest =>
      let '(pool1, deleted) := splice1 index pool in
      let '(pool2, ds) := delete_each rest pool1 in
      (pool2, deleted :: ds)
  end.

(** The body shared by the two bulk-delete commands once the pool is
    chosen: the new pool and the removed entries, or the refusal. *)
Definition delete_many {A} (args : delete_args) (pool : list A)
  : reply + (list A * list (option A)) :=
  if (length pool =? 0)%nat then inl NothingToDelete
  else
    match indicesToDelete (length pool) args with
    | inl r => inl r
    | inr indices => inr (delete_each (sort_descending indices) pool)
    end.

Definition deletevideos (ctx : context) (args : delete_args) (s : state) : state :=
  if negb (isAdmin ctx) then emit (Reply NotAuthorized) s
  else
    match delete_many args (videos s) with
    | inl r => emit (Reply r) s
    | inr (pool, deletedVideos) =>
        emit (Reply (DeletedCount (length deletedVideos)))
          (saveVideos (set_videos pool s))
    end.

Definition deleteimages (ctx : context) (args : delete_args) (s : state) : state :=
  if negb (isAdmin ctx) then emit (Reply NotAuthorized) s
  else
    match delete_many args (images s) with
    | inl r => emit (Reply r) s
    | inr (pool, deletedImages) =>
        emit (Reply (DeletedCount (length deletedImages)))
          (saveImages (set_images pool s))
    end.

(** [bot.command('schedule')] *)
Definition schedule_command (ctx : context) (s : state) : state :=
  if decide (chat_type ctx = "private") then emit (Reply GroupsOnly) s
  else if ((length (videos s) =? 0) && (length (images s) =? 0))%nat then
    emit (Reply NoMediaAvailable) s
  else emit (Reply AskMediaType) s.

(** [bot.action(['videos', 'images', 'mix'], ...)]; [data] is the callback
    data, and the handler only runs when it is one of the three triggers. *)
Definition on_action (ctx : context) (data : string) (s : state) : state :=
  if decide (data ∈ ["videos"; "images"; "mix"]) then
    emit (Reply AskInterval)
      (set_sessions (<[session_key ctx := data]> (sessions s)) s)
  else s.

(** [bot.on('text')]; [numeric] is [ctx.message.text && !isNaN(ctx.message.text)]
    and [parsed] is [parseInt(ctx.message.text)]. *)
Definition on_text (ctx : context) (numeric : bool) (parsed : option Z)
    (now : string) (s : state) : state :=
  match sessions s !! session_key ctx with
  | Some mediaType =>
      if numeric && js_lt (Some 0) parsed then
        let interval := to_integer parsed in
        let s1 := createScheduledJob (chat_id ctx) interval mediaType now s in
        (* delete ctx.session.selectedMediaType *)
        let s2 := set_sessions (delete (session_key ctx) (sessions s1)) s1 in
        emit (Reply (Scheduled mediaType interval)) s2
      else emit (Reply AskValidNumber) s
  | None => s
  end.

(** [bot.command('stop')] *)
Definition stop (ctx : context) (s : state) : state :=
  let chatId := chat_id ctx in
  if decide (chat_type ctx = "private") then emit (Reply GroupsOnly) s
  else
    match schedules s !! chatId with
    | Some h =>
        let s1 := cancel_job h s in
        let s2 := set_schedules (delete chatId (schedules s1)) s1 in
        let s3 := set_scheduleData (delete chatId (scheduleData s2)) s2 in
        let s4 := saveScheduleData s3 in
        let s5 := set_sentMediaTracking (delete chatId (sentMediaTracking s4)) s4 in
        emit (Reply Stopped) s5
    | None =>
        match scheduleData s !! chatId with
        | Some _ =>
            let s1 := set_scheduleData (delete chatId (scheduleData s)) s in
            let s2 := saveScheduleData s1 in
            let s3 := set_sentMediaTracking (delete chatId (sentMediaTracking s2)) s2 in
            emit (Reply Stopped) s3
        | None => emit (Reply NothingScheduled) s
        end
    end.

(** ** Process start *)

(** The state after the three [fs.readJsonSync] calls: every entry read is
    an object of its own, no timer exists and nothing has been sent. *)
Definition load (videosJson imagesJson : list media)
    (schedulesJson : gmap string schedule_entry) : state :=
  {| videos := imap (λ i m, Obj i m) videosJson;
     images := imap (λ i m, Obj (length videosJson + i) m) imagesJson;
     schedules := ∅;
     scheduleData := schedulesJson;
     sentMediaTracking := ∅;
     sessions := ∅;
     jobs := [];
     next_addr := length videosJson + length imagesJson;
     videosFile := videosJson;
     imagesFile := imagesJson;
     schedulesFile := schedulesJson;
     log := [] |}.

(** [for (const chatId in scheduleData) createScheduledJob(chatId,
    scheduleData[chatId].interval, scheduleData[chatId].mediaType)], over the
    keys in the order the loop visits them; [clock chatId] is the time read
    while the job of [chatId] is created. *)
Definition rearm (clock : string → string) (chatIds : list string) (s : state)
  : state :=
  foldl (λ s chatId,
           match scheduleData s !! chatId with
           | Some e => createScheduledJob chatId (interval e) (mediaType e)
                         (clock chatId) s
           | None => emit Thrown s
           end) s chatIds.

Definition startup (clock : string → string) (videosJson imagesJson : list media)
    (schedulesJson : gmap string schedule_entry) : state :=
  rearm clock (map_to_list schedulesJson).*1
    (load videosJson imagesJson schedulesJson).

(** ** Everything that can happen after start *)

(** One operation per handler, and one for a minute of the clock.  [Stop]
    is a run of the handler given to [bot.command('stop')] (line 616).
    That handler is registered after [bot.on('text')] (line 575), which
    takes every text message and does not pass it on; a message /stop
    handled there is the operation [OnText ctx false None now], since
    [isNaN] holds of its text.  What is shown of every sequence of
    operations therefore holds with and without runs of the stop handler. *)
Inductive op :=
  | OnVideo (ctx : context) (videoId : string) (cap : option string) (now : string)
  | OnPhoto (ctx : context) (photos : list string) (cap : option string) (now : string)
  | DeleteVideo (ctx : context) (wellformed : bool) (index : option Z)
  | DeleteImage (ctx : context) (wellformed : bool) (index : option Z)
  | DeleteVideos (ctx : context) (args : delete_args)
  | DeleteImages (ctx : context) (args : delete_args)
  | ScheduleCommand (ctx : context)
  | OnAction (ctx : context) (data : string)
  | OnText (ctx : context) (numeric : bool) (parsed : option Z) (now : string)
  | Stop (ctx : context)
  | Minute (minute : Z) (rnd : nat → sample).

Definition step (o : op) (s : state) : state :=
  match o with
  | OnVideo ctx videoId cap now => on_video ctx videoId cap now s
  | OnPhoto ctx photos cap now => on_photo ctx photos cap now s
  | DeleteVideo ctx wellformed index => deletevideo ctx wellformed index s
  | DeleteImage ctx wellformed index => deleteimage ctx wellformed index s
  | DeleteVideos ctx args => deletevideos ctx args s
  | DeleteImages ctx args => deleteimages ctx args s
  | ScheduleCommand ctx => schedule_command ctx s
  | OnAction ctx data => on_action ctx data s
  | OnText ctx numeric parsed now => on_text ctx numeric parsed now s
  | Stop ctx => stop ctx s
  | Minute minute rnd => elapse_minute minute rnd s
  end.

Definition run (ops : list op) (s : state) : state := foldl (λ s o, step o s) s ops.

(** ** Notions used to state the properties *)

(** The tracker set that marks exactly the given positions. *)
Definition marks (positions : list nat) : gset Z :=
  list_to_set (Z.of_nat <$> positions).

(** Successive ticks of one job, one random sample per tick. *)
Definition ticks (rs : list sample) (j : job) (s : state) : state :=
  foldl (λ s r, job_callback j r s) s rs.

(** Every job that node-schedule will still invoke is the one its chat's
    handle in [schedules] points to. *)
Definition wf_timers (s : state) : Prop :=
  ∀ h j, jobs s !! h = Some j → cancelled j = false →
         schedules s !! job_chat j = Some h.

(** No job of the chat will be invoked any more. *)
Definition idle (chatId : string) (s : state) : Prop :=
  ∀ j, j ∈ jobs s → job_chat j = chatId → cancelled j = true.

(** The sends addressed to a chat, and the part of the log made of them. *)
Definition is_dispatch_to (chatId : string) (e : event) : bool :=
  match e with
  | SendVideo c _ _ | SendPhoto c _ _ => bool_decide (c = chatId)
  | _ => false
  end.
Definition dispatches_to (chatId : string) (s : state) : list event :=
  filter (λ e, is_dispatch_to chatId e = true) (log s).

(** The entry [createScheduledJob] stores when it re-creates the job of a
    persisted entry at time [now]. *)
Definition restamp (now : string) (e : schedule_entry) : schedule_entry :=
  Entry (interval e) (mediaType e) now.

(** The job [createScheduledJob] arms for a persisted entry. *)
Definition job_of (chatId : string) (e : schedule_entry) : job :=
  Job chatId (interval e) (mediaType e) false.

(** The entries of [pool] whose position is not among [indices], in their
    original order. *)
Definition keep_unlisted {A} (indices : list Z) (pool : list A) : list A :=
  filter_index (λ i, bool_decide (Z.of_nat i ∉ indices)) 0 pool.

(** The 0-based positions named by a bulk-delete request that passes the
    format checks: a range first-last with first <= last, a list
    n1,n2,... of numbers, or a single number, all 1-based in the text. *)
Definition requested (args : delete_args) : option (list Z) :=
  match args with
  | RangeText true (Some first) (Some last) =>
      if first <=? last then Some (seqZ (first - 1) (last - first + 1)) else None
  | ListText items => (λ ns, (λ n, n - 1) <$> ns) <$> mapM id items
  | NumberText (Some n) => Some [n - 1]
  | _ => None
  end.


(** Between [s] and [s'] every collection was either left alone together
    with its file, or its file was written last with what memory holds. *)
Definition persisted_or_untouched (s s' : state) : Prop :=
  ((videos s' = videos s ∧ videosFile s' = videosFile s) ∨
     videosFile s' = fields <$> videos s') ∧
  ((images s' = images s ∧ imagesFile s' = imagesFile s) ∨
     imagesFile s' = fields <$> images s') ∧
  ((scheduleData s' = scheduleData s ∧ schedulesFile s' = schedulesFile s) ∨
     schedulesFile s' = scheduleData s').

(** Every pool entry is an object of its own, allocated before [next_addr]. *)
Definition wf_pools (s : state) : Prop :=
  NoDup (addr <$> videos s ++ images s) ∧
  Forall (λ o, (addr o < next_addr s)%nat) (videos s ++ images s).

(** ** Sample data for the examples *)

Definition jan (day : string) : string := "2024-01-" +:+ day +:+ "T00:00:00.000Z".

(** Three entries A, B, C, each an object of its own. *)
Definition itemA : mediaObj := Obj 0 (Media "A" "video" "first" (jan "01")).
Definition itemB : mediaObj := Obj 1 (Media "B" "video" "second" (jan "02")).
Definition itemC : mediaObj := Obj 2 (Media "C" "image" "third" (jan "03")).

(** The admin writing to the bot in private, and a member of the group
    chat1. *)
Definition admin_ctx : context := Ctx true "42" "private" "42:42".
Definition group_chat1 : context := Ctx false "chat1" "supergroup" "7:chat1".

(** A pool of five videos, no images, no schedule. *)
Definition five_videos : state :=
  load [Media "v0" "video" "zero" (jan "01");
        Media "v1" "video" "one" (jan "02");
        Media "v2" "video" "two" (jan "03");
        Media "v3" "video" "three" (jan "04");
        Media "v4" "video" "four" (jan "05")] [] ∅.

(** Five videos and five images, no schedule. *)
Definition five_of_each : state :=
  load [Media "v0" "video" "zero" (jan "01");
        Media "v1" "video" "one" (jan "02");
        Media "v2" "video" "two" (jan "03");
        Media "v3" "video" "three" (jan "04");
        Media "v4" "video" "four" (jan "05")]
       [Media "i0" "image" "zero" (jan "06");
        Media "i1" "image" "one" (jan "07");
        Media "i2" "image" "two" (jan "08");
        Media "i3" "image" "three" (jan "09");
        Media "i4" "image" "four" (jan "10")] ∅.

(** The same pool with chat1 half way through a cycle. *)
Definition mid_cycle : state :=
  set_sentMediaTracking {["chat1" := {[0; 1]}]} five_videos.

(** One video in the pool and a schedule for chat1. *)
Definition one_video : list media := [Media "A" "video" "first" (jan "01")].
Definition scheduled_chat1 : state :=
  createScheduledJob "chat1" 30 "images" "2024-01-01T10:00:00.000Z"
    (load one_video [] ∅).

(** A registry file with one entry, and a clock that reads a later time. *)
Definition stored_chat1 : gmap string schedule_entry :=
  {["chat1" := Entry 1 "videos" "2024-01-01T10:00:00.000Z"]}.
Definition june_clock (chatId : string) : string := "2024-06-01T12:00:00.000Z".

(** Three minutes of the clock with their random samples. *)
Definition three_minutes : list (Z * (nat → sample)) :=
  [(0, λ _, Sample 0 0); (1, λ _, Sample 1 0); (2, λ _, Sample 0 3)].

(** ** Further notions: ticks, registry, dialogue, listing *)

(** What a tick sends for the entry it selected: the dispatch on
    [randomMedia.type] in the job callback. *)
Definition send_of (chatId : string) (m : mediaObj) : list event :=
  if decide (media_type (fields m) = "video") then
    [SendVideo chatId (media_id (fields m)) (caption (fields m))]
  else if decide (media_type (fields m) = "image") then
    [SendPhoto chatId (media_id (fields m)) (caption (fields m))]
  else [].

(** [s'] differs from [s] at most in the tracker and the log. *)
Definition only_tracker_and_log (s s' : state) : Prop :=
  videos s' = videos s ∧ images s' = images s ∧
  schedules s' = schedules s ∧ scheduleData s' = scheduleData s ∧
  sessions s' = sessions s ∧ jobs s' = jobs s ∧ next_addr s' = next_addr s ∧
  videosFile s' = videosFile s ∧ imagesFile s' = imagesFile s ∧
  schedulesFile s' = schedulesFile s.

(** An event the timers may produce in [s]: the send of a pool entry to the
    chat of a job that has not been cancelled. *)
Definition timer_send (s : state) (e : event) : Prop :=
  ∃ j m, j ∈ jobs s ∧ cancelled j = false ∧
         m ∈ videos s ++ images s ∧ e ∈ send_of (job_chat j) m.

(** Every handle in [schedules] points to a live job of its chat. *)
Definition handles_own (s : state) : Prop :=
  ∀ c h, schedules s !! c = Some h →
         ∃ j, jobs s !! h = Some j ∧ job_chat j = c ∧ cancelled j = false.

(** The live jobs of every chat are what its registry entry says. *)
Definition registry_matches (s : state) : Prop :=
  ∀ c, active_jobs c s = from_option (λ e, [job_of c e]) [] (scheduleData s !! c).

(** The three together: what scheduling and stopping keep true. *)
Definition in_sync (s : state) : Prop :=
  wf_timers s ∧ handles_own s ∧ registry_matches s.

(** The three media selectors offered by /schedule. *)
Definition selectors : list string := ["videos"; "images"; "mix"].

(** Sessions, registry entries and jobs carry a selector offered by
    /schedule, and the intervals are positive. *)
Definition valid_schedules (s : state) : Prop :=
  (∀ k v, sessions s !! k = Some v → v ∈ selectors) ∧
  (∀ c e, scheduleData s !! c = Some e → 0 < interval e ∧ mediaType e ∈ selectors) ∧
  (∀ j, j ∈ jobs s → 0 < job_interval j ∧ job_mediaType j ∈ selectors).

(** The context of an update that only the admin may send. *)
Definition admin_only (o : op) : option context :=
  match o with
  | OnVideo ctx _ _ _ | OnPhoto ctx _ _ _
  | DeleteVideo ctx _ _ | DeleteImage ctx _ _
  | DeleteVideos ctx _ | DeleteImages ctx _ => Some ctx
  | _ => None
  end.

(** No file id occurs twice in a pool. *)
Definition unique_ids (s : state) : Prop :=
  NoDup (media_id ∘ fields <$> videos s) ∧ NoDup (media_id ∘ fields <$> images s).

(** One numbered entry of the message sent by /listvideos or /listimages:
    [(index + 1) + '. Added at: ' + ...], the caption line when the caption
    is not empty, and the link ['/deletevideo_' + index].  The date is kept
    as stored; its rendering by [toLocaleString] is left out. *)
Record row := Row {
  row_number : nat;
  row_added : string;
  row_caption : option string;
  row_delete_link : nat
}.

(** The [forEach((video, index) => ...)] of the two list commands. *)
Definition rows (pool : list mediaObj) : list row :=
  imap (λ index video,
          Row (index + 1) (addedAt (fields video))
            (if decide (caption (fields video) = EmptyString) then None
             else Some (caption (fields video)))
            index) pool.

(** What a list command answers. *)
Inductive listing :=
  | ListingRefused          (* 'You are not authorized to use this command.' *)
  | NothingAdded            (* 'No videos added yet.' / 'No images added yet.' *)
  | Listed (entries : list row).

(** [bot.command('listvideos')]; [bot.command('listimages')] is the same
    code over the other pool. *)
Definition listvideos (ctx : context) (s : state) : listing :=
  if negb (isAdmin ctx) then ListingRefused
  else if (length (videos s) =? 0)%nat then NothingAdded
  else Listed (rows (videos s)).

(** * Verified properties *)

Section tracker.
Implicit Types (L : list mediaObj) (t : gmap string (gset Z)) (r : sample).

Lemma random_index_lt r (n : nat) : (0 < n)%nat → (random_index r n < n)%nat.
Proof.
  intros Hn. unfold random_index.
  apply Nat.Div0.div_lt_upper_bound. nia.
Qed.

Lemma random_index_any (k n : nat) :
  (k < n)%nat → random_index (Sample k (n - k - 1)) n = k.
Proof.
  intros Hk. unfold random_index; simpl.
  replace (k + (n - k - 1) + 1)%nat with n by lia.
  apply Nat.div_mul. lia.
Qed.

Lemma filter_index_lookup {A} keep (k : nat) (l : list A) j x :
  filter_index keep k l !! j = Some x →
  ∃ i, l !! i = Some x ∧ keep (k + i)%nat = true.
Proof.
  revert k j. induction l as [|y l IH]; intros k j; simpl; [done|].
  destruct (keep k) eqn:Hk.
  - destruct j as [|j]; simpl.
    + intros [= ->]. exists 0%nat. by rewrite Nat.add_0_r.
    + intros (i & ? & ?)%IH. exists (S i). split; [done|].
      by replace (k + S i)%nat with (S k + i)%nat by lia.
  - intros (i & ? & ?)%IH. exists (S i). split; [done|].
    by replace (k + S i)%nat with (S k + i)%nat by lia.
Qed.

Lemma filter_index_nil {A} keep (k : nat) (l : list A) :
  filter_index keep k l = [] →
  ∀ i, (i < length l)%nat → keep (k + i)%nat = false.
Proof.
  revert k. induction l as [|y l IH]; intros k; simpl; [lia|].
  destruct (keep k) eqn:Hk; [done|].
  intros Hnil [|i] Hi.
  - by rewrite Nat.add_0_r.
  - replace (k + S i)%nat with (S k + i)%nat by lia. apply IH; [done|lia].
Qed.

Lemma filter_index_all_false {A} keep (k : nat) (l : list A) :
  (∀ i, (i < length l)%nat → keep (k + i)%nat = false) →
  filter_index keep k l = [].
Proof.
  revert k. induction l as [|y l IH]; intros k H; simpl; [done|].
  rewrite <- (Nat.add_0_r k) at 1. rewrite H by (simpl; lia).
  apply IH. intros i Hi.
  replace (S k + i)%nat with (k + S i)%nat by lia. apply H. simpl; lia.
Qed.

Lemma indexOf_lookup L (i : nat) m :
  NoDup (addr <$> L) → L !! i = Some m → indexOf L (Some m) = Z.of_nat i.
Proof.
  intros Hnd Hi. unfold indexOf.
  destruct (list_find _ L) as [[i' x']|] eqn:Hf.
  - apply list_find_Some in Hf as (Hi' & Hx' & _).
    f_equal. eapply NoDup_lookup; [exact Hnd| |].
    + rewrite list_lookup_fmap, Hi'. simpl. by rewrite Hx'.
    + by rewrite list_lookup_fmap, Hi.
  - apply list_find_None in Hf.
    rewrite Forall_forall in Hf. exfalso. eapply Hf; [|done].
    by eapply list_elem_of_lookup_2.
Qed.

End tracker.

Section cycle.
Implicit Types (L : list mediaObj) (t : gmap string (gset Z)) (r : sample).

Lemma elem_of_marks (i : nat) positions : Z.of_nat i ∈ marks positions ↔ i ∈ positions.
Proof.
  unfold marks. rewrite elem_of_list_to_set, list_elem_of_fmap. split.
  - intros (j & Hj & ?). by apply Nat2Z.inj in Hj as ->.
  - intros ?. by exists i.
Qed.

Lemma marks_snoc positions (i : nat) :
  marks (positions ++ [i]) = marks positions ∪ {[Z.of_nat i]}.
Proof. unfold marks. rewrite fmap_app, list_to_set_app_L. simpl. by rewrite union_empty_r_L. Qed.

Lemma sent_of_insert c S t : sent_of c (<[c := S]> t) = S.
Proof. unfold sent_of. by rewrite lookup_insert_eq. Qed.

Lemma sent_of_insert_ne c c' S t : c ≠ c' → sent_of c' (<[c := S]> t) = sent_of c' t.
Proof. intros. unfold sent_of. by rewrite lookup_insert_ne. Qed.

(** All positions marked: the filter leaves nothing. *)
Lemma unsent_nil_iff L (S : gset Z) :
  filter_index (λ index, bool_decide (Z.of_nat index ∉ S)) 0 L = [] ↔
  ∀ i : nat, (i < length L)%nat → Z.of_nat i ∈ S.
Proof.
  split.
  - intros Hnil i Hi. pose proof (filter_index_nil _ _ _ Hnil i Hi) as Hk.
    simpl in Hk. apply bool_decide_eq_false in Hk.
    destruct (decide (Z.of_nat i ∈ S)); [done|contradiction].
  - intros Hall. apply filter_index_all_false. intros i Hi; simpl.
    apply bool_decide_eq_false. intros Hn. apply Hn, Hall, Hi.
Qed.

Lemma bounded_nodup_length (positions : list nat) (n : nat) :
  NoDup positions → Forall (λ i, (i < n)%nat) positions →
  (length positions ≤ n)%nat.
Proof.
  intros Hnd Hall.
  replace n with (length (seq 0 n)) by apply length_seq.
  apply submseteq_length, NoDup_submseteq; [done|].
  intros i Hi. rewrite Forall_forall in Hall. apply elem_of_seq. specialize (Hall i Hi). lia.
Qed.

Lemma bounded_nodup_full (positions : list nat) (n : nat) :
  NoDup positions → Forall (λ i, (i < n)%nat) positions →
  length positions = n → positions ≡ₚ seq 0 n.
Proof.
  intros Hnd Hall Hlen.
  apply submseteq_length_Permutation.
  - apply NoDup_submseteq; [done|].
    intros i Hi. rewrite Forall_forall in Hall. apply elem_of_seq. specialize (Hall i Hi). lia.
  - rewrite length_seq. lia.
Qed.

(** While fewer positions are marked than the list has entries, a draw
    returns an entry at an unmarked position and marks that position. *)
Lemma draw_unsent c L r t positions :
  NoDup (addr <$> L) →
  NoDup positions →
  (length positions < length L)%nat →
  sent_of c t = marks positions →
  ∃ (i : nat) m, (L !! i = Some m) ∧ (i ∉ positions) ∧
    (getNextUnsentMedia c L r t = (<[c := marks (positions ++ [i])]> t, Some m)).
Proof.
  intros HL Hnd Hlen Hsent. unfold getNextUnsentMedia. rewrite Hsent.
  set (unsent := filter_index _ 0 L).
  assert (unsent ≠ []) as Hne.
  { intros Hnil. subst unsent. pose proof (proj1 (unsent_nil_iff L (marks positions)) Hnil) as Hall.
    assert (length (seq 0 (length L)) ≤ length positions)%nat as Hle.
    { apply submseteq_length, NoDup_submseteq; [apply NoDup_seq|].
      intros i [_ Hi]%elem_of_seq. apply elem_of_marks, Hall. lia. }
    rewrite length_seq in Hle. lia. }
  destruct (length unsent =? 0)%nat eqn:Hz.
  { apply Nat.eqb_eq in Hz. by destruct unsent. }
  assert (random_index r (length unsent) < length unsent)%nat as Hlt.
  { apply random_index_lt. destruct unsent; [done|simpl; lia]. }
  apply lookup_lt_is_Some_2 in Hlt as [m Hm]. rewrite Hm.
  apply filter_index_lookup in Hm as (i & Hi & Hk). simpl in Hk.
  apply bool_decide_eq_true in Hk.
  exists i, m. split; [done|]. split.
  - intros Hin. by apply Hk, elem_of_marks.
  - by rewrite (indexOf_lookup L i m), marks_snoc.
Qed.

(** When every position is marked, a draw clears the set and returns the
    entry at the random position of the full list. *)
Lemma draw_exhausted c L r t :
  (∀ i : nat, (i < length L)%nat → Z.of_nat i ∈ sent_of c t) →
  getNextUnsentMedia c L r t =
    (<[c := ∅]> t, L !! random_index r (length L)).
Proof.
  intros Hall. unfold getNextUnsentMedia.
  pose proof (proj2 (unsent_nil_iff L (sent_of c t)) Hall) as Hnil.
  by rewrite Hnil.
Qed.

Lemma draws_fresh c L rs : 
  NoDup (addr <$> L) →
  ∀ t positions,
  NoDup positions →
  (length positions + length rs ≤ length L)%nat →
  sent_of c t = marks positions →
  ∃ more : list nat,
    NoDup (positions ++ more) ∧
    Forall (λ i, (i < length L)%nat) more ∧
    length more = length rs ∧
    (draws rs c L t).2 = (λ i, L !! i) <$> more ∧
    sent_of c (draws rs c L t).1 = marks (positions ++ more).
Proof.
  intros HL. induction rs as [|r rs IH]; intros t positions Hnd Hlen Hsent.
  - exists []. rewrite app_nil_r. by repeat split.
  - simpl in Hlen.
    destruct (draw_unsent c L r t positions) as (i & m & Hi & Hfresh & Hdraw);
      [done|done|lia|done|].
    simpl. rewrite Hdraw.
    destruct (IH (<[c:=marks (positions ++ [i])]> t) (positions ++ [i]))
      as (more & Hnd' & Hall & Hlen' & Hsel & Hsent').
    + apply NoDup_app. repeat split; [done| |apply NoDup_singleton].
      intros x Hx ->%list_elem_of_singleton. done.
    + rewrite length_app. simpl. lia.
    + apply sent_of_insert.
    + destruct (draws rs c L _) as [t2 xs] eqn:Hd. simpl in *.
      exists (i :: more). rewrite <- app_assoc in Hnd', Hsent'. simpl in *.
      repeat split; try done.
      * constructor; [|done]. by eapply lookup_lt_Some.
      * by rewrite Hlen'.
      * by rewrite Hi, Hsel.
Qed.

Lemma lookup_all_positions L : (λ i, L !! i) <$> seq 0 (length L) = Some <$> L.
Proof.
  apply list_eq. intros i. rewrite !list_lookup_fmap.
  destruct (L !! i) as [x|] eqn:Hi; simpl.
  - rewrite (lookup_seq_lt 0) by (by eapply lookup_lt_Some). simpl. by rewrite Hi.
  - rewrite lookup_seq_ge; [done|]. by apply lookup_ge_None.
Qed.
End cycle.

Section ticking.
Implicit Types (j : job) (s : state).

(** A tick on a non-empty candidate list is one draw on that list; the
    pools are only read. *)
Lemma job_callback_draw j r s :
  mediaToSend (job_mediaType j) s ≠ [] →
  sentMediaTracking (job_callback j r s)
    = (getNextUnsentMedia (job_chat j) (mediaToSend (job_mediaType j) s) r
         (sentMediaTracking s)).1 ∧
  videos (job_callback j r s) = videos s ∧
  images (job_callback j r s) = images s.
Proof.
  intros Hne. unfold job_callback.
  destruct (mediaToSend (job_mediaType j) s) as [|m L] eqn:HL; [done|].
  change (0 <? length (m :: L))%nat with true. cbv iota.
  destruct (getNextUnsentMedia _ _ _ _) as [t x].
  destruct x as [m0|]; repeat case_decide; by simpl.
Qed.

Lemma mediaToSend_pools mediaType s s' :
  videos s' = videos s → images s' = images s →
  mediaToSend mediaType s' = mediaToSend mediaType s.
Proof. unfold mediaToSend. by intros -> ->. Qed.

(** Successive ticks of a job walk through the draws of its chat. *)
Lemma ticks_are_draws rs : ∀ j s,
  mediaToSend (job_mediaType j) s ≠ [] →
  sentMediaTracking (ticks rs j s)
    = (draws rs (job_chat j) (mediaToSend (job_mediaType j) s)
         (sentMediaTracking s)).1.
Proof.
  unfold ticks. induction rs as [|r rs IH]; intros j s Hne; [done|].
  destruct (job_callback_draw j r s Hne) as (Ht & Hv & Hi).
  pose proof (mediaToSend_pools (job_mediaType j) s _ Hv Hi) as HL.
  simpl. rewrite IH by (by rewrite HL). rewrite HL, Ht.
  destruct (getNextUnsentMedia _ _ r _) as [t1 x]. simpl.
  by destruct (draws rs _ _ t1).
Qed.
End ticking.

(** C1.  Non-repeating selection.  For every chat and every candidate list
    [L] of n distinct objects, presented unchanged on successive draws
    starting from an empty tracker set, the first n selections are a
    permutation of [L]: no selection repeats and every entry of [L] is
    selected exactly once.  The draw after them may return any entry of
    [L] again, depending only on the random sample.  For [A; B; C] this is
    the scenario of three selections covering A, B and C followed by a
    fourth that may repeat any of them. *)
Theorem selections_cover_list_before_repeat
    (c : string) (L : list mediaObj) (t : gmap string (gset Z)) (rs : list sample) :
  NoDup (addr <$> L) →
  sent_of c t = ∅ →
  length rs = length L →
  ∃ t' sel,
    draws rs c L t = (t', sel) ∧
    sel ≡ₚ Some <$> L ∧
    NoDup sel ∧
    (∀ x, x ∈ L → ∃ r, (getNextUnsentMedia c L r t').2 = Some x).
Proof.
  intros HL Hsent Hlen.
  destruct (draws_fresh c L rs HL t []) as (js & Hnd & Hall & Hjs & Hsel & Hsent');
    [apply NoDup_nil_2|simpl; lia|by rewrite Hsent|].
  simpl in Hnd, Hsent'.
  destruct (draws rs c L t) as [t' sel] eqn:Hd. simpl in *.
  assert (js ≡ₚ seq 0 (length L)) as Hperm.
  { apply bounded_nodup_full; [done|done|lia]. }
  assert (sel ≡ₚ Some <$> L) as Hcover.
  { rewrite Hsel, <- lookup_all_positions. by apply fmap_Permutation. }
  exists t', sel. repeat split; [done| |].
  - rewrite Hcover. apply (NoDup_fmap_2 _). by eapply NoDup_fmap_1.
  - intros x (k & Hk)%list_elem_of_lookup_1.
    exists (Sample k (length L - k - 1)).
    rewrite draw_exhausted; simpl.
    + rewrite random_index_any; [done|]. by eapply lookup_lt_Some.
    + intros i Hi. rewrite Hsent'. apply elem_of_marks.
      rewrite Hperm. apply elem_of_seq. lia.
Qed.

Lemma selections_cover_list_before_repeat_witness :
  ∃ t' sel,
    draws [Sample 1 1; Sample 0 0; Sample 3 0] "X" [itemA; itemB; itemC] ∅ = (t', sel) ∧
    sel ≡ₚ Some <$> [itemA; itemB; itemC] ∧
    NoDup sel ∧
    (∀ x, x ∈ [itemA; itemB; itemC] →
          ∃ r, (getNextUnsentMedia "X" [itemA; itemB; itemC] r t').2 = Some x).
Proof.
  apply (selections_cover_list_before_repeat "X" [itemA; itemB; itemC] ∅
           [Sample 1 1; Sample 0 0; Sample 3 0]).
  - apply (bool_decide_unpack _). vm_compute. reflexivity.
  - reflexivity.
  - reflexivity.
Defined.

Example draws_abc :
  (draws [Sample 1 1; Sample 0 0; Sample 3 0; Sample 1 1] "X" [itemA; itemB; itemC] ∅).2
  = [Some itemB; Some itemA; Some itemC; Some itemB].
Proof. vm_compute. reflexivity. Qed.

(** Two objects with the same content are still two entries: positions are
    found by identity, so both are selected before the cycle ends. *)
Example equal_content_entries :
  let twin := Obj 7 (fields itemA) in
  (draws [Sample 0 0; Sample 0 0] "X" [itemA; twin] ∅).2 = [Some itemA; Some twin].
Proof. vm_compute. reflexivity. Qed.

(** C2.  The draw made at cycle exhaustion is not recorded.  With the list
    [A; B] and both positions already marked for chat X, the draw clears
    the set and returns A (sample 0) but leaves the set empty instead of
    marking position 0, so the very next draw with the same sample returns
    A once more although B has not been sent in the new cycle. *)
Theorem exhaustion_draw_is_not_recorded :
  let L := [itemA; itemB] in
  let t : gmap string (gset Z) := {["X" := {[0; 1]}]} in
  getNextUnsentMedia "X" L (Sample 0 0) t = (<["X" := ∅]> t, Some itemA) ∧
  sent_of "X" (getNextUnsentMedia "X" L (Sample 0 0) t).1 ≠ {[0]} ∧
  (draws [Sample 0 0; Sample 0 0] "X" L t).2 = [Some itemA; Some itemA].
Proof.
  cbn zeta. split; [|split].
  - vm_compute. reflexivity.
  - vm_compute. intros H. discriminate H.
  - vm_compute. reflexivity.
Qed.

Section timers.
Implicit Types (s : state) (c : string) (j : job).

Lemma filter_nil_intro {A} (P : A → Prop) `{!∀ x, Decision (P x)} (l : list A) :
  (∀ x, x ∈ l → ¬ P x) → filter P l = [].
Proof.
  induction l as [|x l IH]; intros Hall; [done|].
  rewrite filter_cons_False by (apply Hall; left).
  apply IH. intros y Hy. apply Hall. by right.
Qed.

Lemma cancel_job_lookup h s h' j :
  jobs (cancel_job h s) !! h' = Some j →
  ∃ j0, jobs s !! h' = Some j0 ∧ job_chat j = job_chat j0 ∧
        job_interval j = job_interval j0 ∧ job_mediaType j = job_mediaType j0 ∧
        (cancelled j = false → h' ≠ h ∧ cancelled j0 = false).
Proof.
  simpl. destruct (decide (h = h')) as [->|Hne].
  - rewrite list_lookup_alter_eq. destruct (jobs s !! h') as [j0|]; [|done].
    simpl. intros [= <-]. exists j0. by repeat split.
  - rewrite list_lookup_alter_ne by done. intros Hj. exists j.
    repeat split; [done|congruence|done].
Qed.

(** After [createScheduledJob] the chat has exactly the new job. *)
Lemma createScheduledJob_active c i m now s :
  wf_timers s →
  active_jobs c (createScheduledJob c i m now s) = [Job c i m false].
Proof.
  intros Hwf. unfold createScheduledJob, active_jobs. simpl.
  rewrite filter_app, filter_cons_True, filter_nil by (by split).
  rewrite filter_nil_intro; [done|].
  intros j (h & Hj)%list_elem_of_lookup_1 [Hc Hact].
  destruct (schedules s !! c) as [h0|] eqn:Hh.
  - apply cancel_job_lookup in Hj as (j0 & Hj0 & Hchat & _ & _ & Hlive).
    destruct (Hlive Hact) as [Hne Hact0].
    pose proof (Hwf h j0 Hj0 Hact0) as Hs. rewrite <- Hchat, Hc, Hh in Hs.
    congruence.
  - pose proof (Hwf h j Hj Hact) as Hs. rewrite Hc, Hh in Hs. done.
Qed.

Lemma createScheduledJob_wf c i m now s :
  wf_timers s → wf_timers (createScheduledJob c i m now s).
Proof.
  intros Hwf h j. unfold createScheduledJob. simpl.
  set (js := jobs (match schedules s !! c with Some h0 => cancel_job h0 s | None => s end)).
  set (sch := schedules (match schedules s !! c with Some h0 => cancel_job h0 s | None => s end)).
  assert (sch = schedules s) as -> by (subst sch; by destruct (schedules s !! c)).
  intros Hj Hact. apply lookup_snoc_Some in Hj as [[Hlt Hj]|[-> <-]].
  - assert (job_chat j ≠ c ∧ schedules s !! job_chat j = Some h) as [Hne Hs].
    { subst js. destruct (schedules s !! c) as [h0|] eqn:Hh.
      - apply cancel_job_lookup in Hj as (j0 & Hj0 & Hchat & _ & _ & Hlive).
        destruct (Hlive Hact) as [Hne Hact0].
        pose proof (Hwf h j0 Hj0 Hact0) as Hs. rewrite <- Hchat in Hs.
        split; [|done]. intros Hc. rewrite Hc, Hh in Hs. congruence.
      - pose proof (Hwf h j Hj Hact) as Hs. split; [|done].
        intros Hc. rewrite Hc, Hh in Hs. done. }
    by rewrite lookup_insert_ne.
  - simpl. by rewrite lookup_insert_eq.
Qed.

Lemma createScheduledJob_scheduleData c i m now s :
  scheduleData (createScheduledJob c i m now s)
    = <[c := Entry i m now]> (scheduleData s).
Proof. unfold createScheduledJob. simpl. by destruct (schedules s !! c). Qed.

Lemma createScheduledJob_schedulesFile c i m now s :
  schedulesFile (createScheduledJob c i m now s)
    = scheduleData (createScheduledJob c i m now s).
Proof. unfold createScheduledJob. simpl. by destruct (schedules s !! c). Qed.
End timers.

Ltac crunch_handler :=
  repeat (simpl; first [ done | case_match ]).

Section frames.
Implicit Types (s : state) (c : string) (j : job).

Lemma job_callback_jobs j r s : jobs (job_callback j r s) = jobs s.
Proof. unfold job_callback. crunch_handler. Qed.

Lemma job_callback_schedules j r s : schedules (job_callback j r s) = schedules s.
Proof. unfold job_callback. crunch_handler. Qed.

Lemma dispatches_to_emit c e s :
  dispatches_to c (emit e s) =
    dispatches_to c s ++ (if is_dispatch_to c e then [e] else []).
Proof.
  unfold dispatches_to. simpl. rewrite filter_app. f_equal.
  destruct (is_dispatch_to c e) eqn:He.
  - by rewrite filter_cons_True.
  - rewrite filter_cons_False; [done|]. by rewrite He.
Qed.

Lemma job_callback_dispatches c j r s :
  job_chat j ≠ c → dispatches_to c (job_callback j r s) = dispatches_to c s.
Proof.
  intros Hne. unfold job_callback.
  repeat case_match; rewrite ?dispatches_to_emit; simpl;
    rewrite ?bool_decide_eq_false_2 by done; by rewrite ?app_nil_r.
Qed.

Lemma fires_cancelled minute j : cancelled j = true → fires minute j = false.
Proof. unfold fires. by intros ->. Qed.

Lemma run_due_jobs minute rnd js : ∀ h s,
  jobs (run_due minute rnd h js s) = jobs s ∧
  schedules (run_due minute rnd h js s) = schedules s.
Proof.
  induction js as [|j js IH]; intros h s; simpl; [done|].
  destruct (IH (S h) (if fires minute j then job_callback j (rnd h) s else s)) as [-> ->].
  destruct (fires minute j); [|done].
  by rewrite job_callback_jobs, job_callback_schedules.
Qed.

Lemma run_due_dispatches c minute rnd js : ∀ h s,
  (∀ j, j ∈ js → job_chat j = c → cancelled j = true) →
  dispatches_to c (run_due minute rnd h js s) = dispatches_to c s.
Proof.
  induction js as [|j js IH]; intros h s Hidle; simpl; [done|].
  rewrite IH by (intros j' Hj'; apply Hidle; by right).
  destruct (fires minute j) eqn:Hf; [|done].
  apply job_callback_dispatches. intros Hc.
  rewrite fires_cancelled in Hf; [done|]. apply Hidle; [by left|done].
Qed.

Lemma elapse_idle c ms : ∀ s,
  idle c s → dispatches_to c (elapse ms s) = dispatches_to c s.
Proof.
  unfold elapse. induction ms as [|[minute rnd] ms IH]; intros s Hidle; simpl; [done|].
  rewrite IH.
  - by apply run_due_dispatches.
  - unfold idle, elapse_minute. by rewrite (proj1 (run_due_jobs _ _ _ _ _)).
Qed.

Lemma idle_active_jobs c s : idle c s ↔ active_jobs c s = [].
Proof.
  unfold idle, active_jobs. split.
  - intros Hidle. apply filter_nil_intro. intros j Hj [Hc Hact].
    rewrite (Hidle j Hj Hc) in Hact. done.
  - intros Hnil j Hj Hc. destruct (cancelled j) eqn:Hact; [done|].
    exfalso. eapply (filter_nil_not_elem_of _ _ j Hnil); [|done]. done.
Qed.

(** The three outcomes of [stop] in a chat that is not private. *)
Lemma stop_with_handle ctx s h :
  chat_type ctx ≠ "private" →
  schedules s !! chat_id ctx = Some h →
  stop ctx s =
    emit (Reply Stopped)
      (set_sentMediaTracking (delete (chat_id ctx) (sentMediaTracking s))
        (saveScheduleData
          (set_scheduleData (delete (chat_id ctx) (scheduleData s))
            (set_schedules (delete (chat_id ctx) (schedules s))
              (cancel_job h s))))).
Proof. intros Hp Hh. unfold stop. rewrite decide_False by done. by rewrite Hh. Qed.

Lemma stop_data_only ctx s e :
  chat_type ctx ≠ "private" →
  schedules s !! chat_id ctx = None →
  scheduleData s !! chat_id ctx = Some e →
  stop ctx s =
    emit (Reply Stopped)
      (set_sentMediaTracking (delete (chat_id ctx) (sentMediaTracking s))
        (saveScheduleData
          (set_scheduleData (delete (chat_id ctx) (scheduleData s)) s))).
Proof.
  intros Hp Hh He. unfold stop. rewrite decide_False by done. by rewrite Hh, He.
Qed.

Lemma stop_nothing ctx s :
  chat_type ctx ≠ "private" →
  schedules s !! chat_id ctx = None →
  scheduleData s !! chat_id ctx = None →
  stop ctx s = emit (Reply NothingScheduled) s.
Proof.
  intros Hp Hh He. unfold stop. rewrite decide_False by done. by rewrite Hh, He.
Qed.

Lemma stop_wf ctx s : wf_timers s → wf_timers (stop ctx s).
Proof.
  intros Hwf. unfold stop.
  destruct (decide (chat_type ctx = "private")); [done|].
  destruct (schedules s !! chat_id ctx) as [h0|] eqn:Hh.
  - intros h j Hj Hact. simpl in *.
    apply (cancel_job_lookup h0 s) in Hj as (j0 & Hj0 & Hchat & _ & _ & Hlive).
    destruct (Hlive Hact) as [Hne Hact0].
    pose proof (Hwf h j0 Hj0 Hact0) as Hs. rewrite <- Hchat in Hs.
    rewrite lookup_delete_ne; [done|].
    intros Hc. rewrite <- Hc, Hh in Hs. congruence.
  - destruct (scheduleData s !! chat_id ctx); done.
Qed.

Lemma stop_idle ctx s :
  wf_timers s →
  last (log (stop ctx s)) = Some (Reply Stopped) →
  idle (chat_id ctx) (stop ctx s).
Proof.
  intros Hwf Hlast. unfold stop in *.
  destruct (decide (chat_type ctx = "private")).
  { simpl in Hlast. rewrite last_snoc in Hlast. done. }
  destruct (schedules s !! chat_id ctx) as [h0|] eqn:Hh.
  - intros j (h & Hj)%list_elem_of_lookup_1 Hc. simpl in Hj.
    destruct (cancelled j) eqn:Hact; [done|].
    apply (cancel_job_lookup h0 s) in Hj as (j0 & Hj0 & Hchat & _ & _ & Hlive).
    destruct (Hlive Hact) as [Hne Hact0].
    pose proof (Hwf h j0 Hj0 Hact0) as Hs. rewrite <- Hchat, Hc, Hh in Hs.
    congruence.
  - destruct (scheduleData s !! chat_id ctx).
    + intros j (h & Hj)%list_elem_of_lookup_1 Hc. simpl in Hj.
      destruct (cancelled j) eqn:Hact; [done|].
      pose proof (Hwf h j Hj Hact) as Hs. rewrite Hc, Hh in Hs. done.
    + simpl in Hlast. rewrite last_snoc in Hlast. done.
Qed.
End frames.

Section reach.
Implicit Types (s : state) (c : string) (j : job).

Lemma wf_timers_frame s s' :
  jobs s' = jobs s → schedules s' = schedules s → wf_timers s → wf_timers s'.
Proof. unfold wf_timers. by intros -> ->. Qed.

Lemma on_text_wf ctx numeric parsed now s :
  wf_timers s → wf_timers (on_text ctx numeric parsed now s).
Proof.
  intros Hwf. unfold on_text.
  destruct (sessions s !! session_key ctx); [|done].
  destruct (numeric && js_lt (Some 0) parsed); [|done].
  eapply wf_timers_frame; [| |by apply createScheduledJob_wf]; done.
Qed.

Lemma step_wf o s : wf_timers s → wf_timers (step o s).
Proof.
  destruct o; simpl; try (by apply on_text_wf); try (by apply stop_wf);
    try (apply wf_timers_frame;
         [ unfold on_video, on_photo, deletevideo, deleteimage, deletevideos,
             deleteimages, schedule_command, on_action, new_object;
           crunch_handler ..]).
  all: unfold elapse_minute; apply run_due_jobs.
Qed.

Lemma run_wf ops : ∀ s, wf_timers s → wf_timers (run ops s).
Proof.
  unfold run. induction ops as [|o ops IH]; intros s Hwf; simpl; [done|].
  by apply IH, step_wf.
Qed.

Lemma rearm_wf clock ks : ∀ s, wf_timers s → wf_timers (rearm clock ks s).
Proof.
  unfold rearm. induction ks as [|k ks IH]; intros s Hwf; simpl; [done|].
  apply IH. destruct (scheduleData s !! k); [by apply createScheduledJob_wf|done].
Qed.

Lemma startup_wf clock vj ij sj : wf_timers (startup clock vj ij sj).
Proof. apply rearm_wf. intros h j Hj. done. Qed.

Lemma reachable_wf clock vj ij sj ops :
  wf_timers (run ops (startup clock vj ij sj)).
Proof. apply run_wf, startup_wf. Qed.
End reach.

Section startup.
Implicit Types (s : state) (c : string) (j : job).

Lemma createScheduledJob_fresh c i m now s :
  schedules s !! c = None →
  jobs (createScheduledJob c i m now s) = jobs s ++ [Job c i m false] ∧
  schedules (createScheduledJob c i m now s) = <[c := length (jobs s)]> (schedules s).
Proof. intros Hh. unfold createScheduledJob. by rewrite Hh. Qed.

Lemma rearm_snoc clock ks k s :
  rearm clock (ks ++ [k]) s =
    match scheduleData (rearm clock ks s) !! k with
    | Some e => createScheduledJob k (interval e) (mediaType e) (clock k)
                  (rearm clock ks s)
    | None => emit Thrown (rearm clock ks s)
    end.
Proof. unfold rearm. by rewrite foldl_snoc. Qed.

Lemma rearm_load clock vj ij (sj : gmap string schedule_entry) ks :
  NoDup ks →
  (∀ k, k ∈ ks → is_Some (sj !! k)) →
  let s := rearm clock ks (load vj ij sj) in
  (∀ c, scheduleData s !! c =
          if decide (c ∈ ks) then restamp (clock c) <$> sj !! c else sj !! c) ∧
  (∀ c, c ∉ ks → schedules s !! c = None) ∧
  (∀ c, active_jobs c s =
          if decide (c ∈ ks) then from_option (λ e, [job_of c e]) [] (sj !! c) else []) ∧
  schedulesFile s = scheduleData s.
Proof.
  induction ks as [|k ks IH] using rev_ind; intros Hnd Hdom.
  - simpl. split; [|split; [|split]]; intros;
      by rewrite ?decide_False by apply not_elem_of_nil.
  - apply NoDup_app in Hnd as (Hnd & Hk & _).
    assert (k ∉ ks) as Hfresh by (intros ?; eapply Hk; [done|by left]).
    destruct IH as (Hdata & Hsched & Hact & Hfile); [done| |].
    { intros k' Hk'. apply Hdom, elem_of_app. by left. }
    destruct (Hdom k) as [e He]; [apply elem_of_app; right; by left|].
    cbn zeta. rewrite rearm_snoc.
    set (s := rearm clock ks (load vj ij sj)) in *.
    rewrite Hdata, decide_False, He by done.
    destruct (createScheduledJob_fresh k (interval e) (mediaType e) (clock k) s)
      as [Hjobs Hsch]; [by apply Hsched|].
    split; [|split; [|split]].
    + intros c. rewrite createScheduledJob_scheduleData.
      destruct (decide (c = k)) as [->|Hne].
      * rewrite lookup_insert_eq, decide_True, He; [done|].
        apply elem_of_app. right. by left.
      * rewrite lookup_insert_ne, Hdata by done.
        destruct (decide (c ∈ ks)).
        -- rewrite decide_True; [done|]. apply elem_of_app. by left.
        -- rewrite decide_False; [done|].
           intros [?|?%list_elem_of_singleton]%elem_of_app; done.
    + intros c Hc. rewrite Hsch.
      rewrite lookup_insert_ne.
      * apply Hsched. intros ?. apply Hc, elem_of_app. by left.
      * intros ->. apply Hc, elem_of_app. right. by left.
    + intros c. unfold active_jobs. rewrite Hjobs, filter_app.
      fold (active_jobs c s). rewrite Hact.
      destruct (decide (c = k)) as [->|Hne].
      * rewrite decide_False, decide_True, He by
          (try done; apply elem_of_app; right; by left).
        simpl. by rewrite filter_cons_True, filter_nil by done.
      * rewrite filter_cons_False, filter_nil, app_nil_r by (simpl; intros []; done).
        destruct (decide (c ∈ ks)).
        -- rewrite decide_True; [done|]. apply elem_of_app. by left.
        -- rewrite decide_False; [done|].
           intros [?|?%list_elem_of_singleton]%elem_of_app; done.
    + apply createScheduledJob_schedulesFile.
Qed.
End startup.

(** C3, counterexample.  Starting with one persisted entry for chat1 whose
    createdAt differs from the clock at start, the re-arm loop leaves a
    registry, in memory and on file, that differs from the stored one, and
    it writes the file. *)
Lemma startup_rewrites_registry :
  let s := startup june_clock [] [] stored_chat1 in
  scheduleData s ≠ stored_chat1 ∧ schedulesFile s ≠ stored_chat1 ∧
  log s = [WriteSchedules (scheduleData s)].
Proof.
  cbn zeta. split; [|split].
  - intros H. apply (f_equal (λ m, createdAt <$> m !! "chat1")) in H.
    vm_compute in H. discriminate H.
  - intros H. apply (f_equal (λ m, createdAt <$> m !! "chat1")) in H.
    vm_compute in H. discriminate H.
  - vm_compute. reflexivity.
Qed.

(** C3, as the code has it.  The re-arm loop goes through
    [createScheduledJob], registry write included: afterwards every
    persisted chat has its entry with the stored interval and selector and
    with createdAt replaced by the time read at start, no other chat has an
    entry, the file holds exactly this registry, and each persisted chat
    has exactly one live job, with the stored interval and selector. *)
Theorem startup_rearms_and_restamps
    (clock : string → string) (vj ij : list media)
    (sj : gmap string schedule_entry) :
  let s := startup clock vj ij sj in
  (∀ c, scheduleData s !! c = restamp (clock c) <$> sj !! c) ∧
  schedulesFile s = scheduleData s ∧
  (∀ c, active_jobs c s = from_option (λ e, [job_of c e]) [] (sj !! c)).
Proof.
  destruct (rearm_load clock vj ij sj (map_to_list sj).*1)
    as (Hdata & _ & Hact & Hfile).
  { apply NoDup_fst_map_to_list. }
  { intros k ([k' e] & -> & Hin)%list_elem_of_fmap.
    apply elem_of_map_to_list in Hin. by exists e. }
  assert (∀ c, c ∉ (map_to_list sj).*1 → sj !! c = None) as Hout.
  { intros c Hc. destruct (sj !! c) as [e|] eqn:He; [|done].
    exfalso. apply Hc, list_elem_of_fmap. exists (c, e).
    split; [done|]. by apply elem_of_map_to_list. }
  unfold startup. cbn zeta. split; [|split; [done|]].
  - intros c. rewrite Hdata. case_decide; [done|]. by rewrite Hout.
  - intros c. rewrite Hact. case_decide; [done|]. by rewrite Hout.
Qed.

(** C4.  Scheduling twice for the same chat replaces the timer: after
    [createScheduledJob] with (i1, m1) and then with (i2, m2) the chat has
    exactly one live job, carrying i2 and m2, the registry entry holds i2
    and m2, and the job armed by the first call has been cancelled.  With
    chat1, 30/images then 10/videos, one live job 10/videos remains. *)
Theorem setSchedule_twice_leaves_one_timer
    (s : state) (c : string) (i1 : Z) (m1 now1 : string) (i2 : Z) (m2 now2 : string) :
  wf_timers s →
  let s1 := createScheduledJob c i1 m1 now1 s in
  let s2 := createScheduledJob c i2 m2 now2 s1 in
  active_jobs c s2 = [Job c i2 m2 false] ∧
  scheduleData s2 !! c = Some (Entry i2 m2 now2) ∧
  ∃ h1, schedules s1 !! c = Some h1 ∧
        jobs s1 !! h1 = Some (Job c i1 m1 false) ∧
        jobs s2 !! h1 = Some (Job c i1 m1 true).
Proof.
  intros Hwf s1 s2. split; [|split].
  - apply createScheduledJob_active. by apply createScheduledJob_wf.
  - subst s2. by rewrite createScheduledJob_scheduleData, lookup_insert_eq.
  - subst s2 s1. unfold createScheduledJob at 2 3 4. simpl.
    set (s0 := match schedules s !! c with Some h => cancel_job h s | None => s end).
    exists (length (jobs s0)).
    assert ((jobs s0 ++ [Job c i1 m1 false]) !! length (jobs s0)
            = Some (Job c i1 m1 false)) as Hnew.
    { by rewrite lookup_app_r, Nat.sub_diag by lia. }
    split; [by rewrite lookup_insert_eq|]. split; [done|].
    unfold createScheduledJob. simpl. rewrite lookup_insert_eq. simpl.
    rewrite lookup_app_l.
    + by rewrite list_lookup_alter_eq, Hnew.
    + rewrite length_alter, length_app. simpl. lia.
Qed.

Lemma setSchedule_twice_leaves_one_timer_witness :
  let s1 := createScheduledJob "chat1" 30 "images" "2024-01-01T10:00:00.000Z"
              (load [] [] ∅) in
  let s2 := createScheduledJob "chat1" 10 "videos" "2024-01-01T10:05:00.000Z" s1 in
  active_jobs "chat1" s2 = [Job "chat1" 10 "videos" false] ∧
  scheduleData s2 !! "chat1" = Some (Entry 10 "videos" "2024-01-01T10:05:00.000Z") ∧
  ∃ h1, schedules s1 !! "chat1" = Some h1 ∧
        jobs s1 !! h1 = Some (Job "chat1" 30 "images" false) ∧
        jobs s2 !! h1 = Some (Job "chat1" 30 "images" true).
Proof.
  apply (setSchedule_twice_leaves_one_timer (load [] [] ∅) "chat1"
           30 "images" "2024-01-01T10:00:00.000Z"
           10 "videos" "2024-01-01T10:05:00.000Z").
  intros h j Hj. simpl in Hj. discriminate Hj.
Defined.

(** C5.  The three outcomes of /stop in a group.  With a timer handle: the
    job is cancelled, handle and registry entry are removed, the registry
    is written once, the chat's tracker set is deleted and the reply is
    Stopped.  Without a handle but with a registry entry: the entry is
    removed and written, the tracker set is deleted, timers are untouched,
    the reply is Stopped.  With neither: the only effect is the reply that
    nothing is scheduled. *)
Theorem cancelSchedule_outcomes (ctx : context) (s : state) :
  chat_type ctx ≠ "private" →
  let c := chat_id ctx in
  let s' := stop ctx s in
  (∀ h, schedules s !! c = Some h →
        jobs s' = jobs (cancel_job h s) ∧
        (∀ j, jobs s !! h = Some j → cancelled <$> jobs s' !! h = Some true) ∧
        schedules s' = delete c (schedules s) ∧
        scheduleData s' = delete c (scheduleData s) ∧
        schedulesFile s' = delete c (scheduleData s) ∧
        sentMediaTracking s' = delete c (sentMediaTracking s) ∧
        log s' = log s ++ [WriteSchedules (delete c (scheduleData s)); Reply Stopped]) ∧
  (∀ e, schedules s !! c = None → scheduleData s !! c = Some e →
        jobs s' = jobs s ∧
        schedules s' = schedules s ∧
        scheduleData s' = delete c (scheduleData s) ∧
        schedulesFile s' = delete c (scheduleData s) ∧
        sentMediaTracking s' = delete c (sentMediaTracking s) ∧
        log s' = log s ++ [WriteSchedules (delete c (scheduleData s)); Reply Stopped]) ∧
  (schedules s !! c = None → scheduleData s !! c = None →
        s' = emit (Reply NothingScheduled) s).
Proof.
  intros Hp c s'. split; [|split].
  - intros h Hh. subst s'. rewrite (stop_with_handle ctx s h Hp Hh). simpl.
    rewrite <- app_assoc. split; [done|]. split; [|done].
    intros j Hj. by rewrite list_lookup_alter_eq, Hj.
  - intros e Hh He. subst s'. rewrite (stop_data_only ctx s e Hp Hh He). simpl.
    by rewrite <- app_assoc.
  - intros Hh He. by apply stop_nothing.
Qed.

Lemma cancelSchedule_outcomes_witness :
  let c := "chat1" in
  let s := scheduled_chat1 in
  let s' := stop group_chat1 s in
  (∀ h, schedules s !! c = Some h →
        jobs s' = jobs (cancel_job h s) ∧
        (∀ j, jobs s !! h = Some j → cancelled <$> jobs s' !! h = Some true) ∧
        schedules s' = delete c (schedules s) ∧
        scheduleData s' = delete c (scheduleData s) ∧
        schedulesFile s' = delete c (scheduleData s) ∧
        sentMediaTracking s' = delete c (sentMediaTracking s) ∧
        log s' = log s ++ [WriteSchedules (delete c (scheduleData s)); Reply Stopped]) ∧
  (∀ e, schedules s !! c = None → scheduleData s !! c = Some e →
        jobs s' = jobs s ∧
        schedules s' = schedules s ∧
        scheduleData s' = delete c (scheduleData s) ∧
        schedulesFile s' = delete c (scheduleData s) ∧
        sentMediaTracking s' = delete c (sentMediaTracking s) ∧
        log s' = log s ++ [WriteSchedules (delete c (scheduleData s)); Reply Stopped]) ∧
  (schedules s !! c = None → scheduleData s !! c = None →
        s' = emit (Reply NothingScheduled) s).
Proof.
  apply (cancelSchedule_outcomes group_chat1 scheduled_chat1).
  simpl. discriminate.
Defined.

Example stop_scheduled_chat1 :
  active_jobs "chat1" scheduled_chat1 = [Job "chat1" 30 "images" false] ∧
  active_jobs "chat1" (stop group_chat1 scheduled_chat1) = [] ∧
  scheduleData (stop group_chat1 scheduled_chat1) = ∅.
Proof. vm_compute. done. Qed.

(** C6.  In every state the process can reach, once /stop has answered
    Stopped for a chat, none of the chat's jobs matches any minute any
    more, and however many minutes elapse afterwards - whatever the random
    samples - the jobs stay as they are and not one further send is
    addressed to that chat. *)
Theorem no_dispatch_after_cancel
    (clock : string → string) (vj ij : list media)
    (sj : gmap string schedule_entry) (ops : list op)
    (ctx : context) (ms : list (Z * (nat → sample))) :
  let s := run ops (startup clock vj ij sj) in
  last (log (stop ctx s)) = Some (Reply Stopped) →
  (∀ minute j, j ∈ jobs (stop ctx s) → job_chat j = chat_id ctx →
               fires minute j = false) ∧
  jobs (elapse ms (stop ctx s)) = jobs (stop ctx s) ∧
  dispatches_to (chat_id ctx) (elapse ms (stop ctx s))
    = dispatches_to (chat_id ctx) (stop ctx s).
Proof.
  intros s Hok.
  assert (idle (chat_id ctx) (stop ctx s)) as Hidle.
  { apply stop_idle; [apply reachable_wf|done]. }
  split; [|split].
  - intros minute j Hj Hc. apply fires_cancelled. by apply Hidle.
  - generalize (stop ctx s). unfold elapse.
    induction ms as [|[minute rnd] ms IH]; intros s0; simpl; [done|].
    rewrite IH. unfold elapse_minute. apply run_due_jobs.
  - by apply elapse_idle.
Qed.

Lemma no_dispatch_after_cancel_witness :
  let s := run [] (startup june_clock one_video [] stored_chat1) in
  (∀ minute j, j ∈ jobs (stop group_chat1 s) → job_chat j = chat_id group_chat1 →
               fires minute j = false) ∧
  jobs (elapse three_minutes (stop group_chat1 s)) = jobs (stop group_chat1 s) ∧
  dispatches_to (chat_id group_chat1) (elapse three_minutes (stop group_chat1 s))
    = dispatches_to (chat_id group_chat1) (stop group_chat1 s).
Proof.
  apply (no_dispatch_after_cancel june_clock one_video [] stored_chat1 []
           group_chat1 three_minutes).
  vm_compute. reflexivity.
Defined.

(** Without the stop the same three minutes send the video three times;
    after it, nothing. *)
Example ticks_before_and_after_stop :
  let s := startup june_clock one_video [] stored_chat1 in
  dispatches_to "chat1" (elapse three_minutes s)
    = [SendVideo "chat1" "A" "first"; SendVideo "chat1" "A" "first";
       SendVideo "chat1" "A" "first"] ∧
  dispatches_to "chat1" (elapse three_minutes (stop group_chat1 s)) = [].
Proof. vm_compute. done. Qed.

#[global] Instance desc_total : Total desc.
Proof. intros a b. unfold desc. lia. Qed.
#[global] Instance desc_trans : Transitive desc.
Proof. intros a b c. unfold desc. lia. Qed.

Section removal.
Context {A : Type}.
Implicit Types (pool : list A) (indices : list Z).

Lemma filter_index_ext (keep keep' : nat → bool) (k : nat) pool :
  (∀ p, (k ≤ p)%nat → keep p = keep' p) →
  filter_index keep k pool = filter_index keep' k pool.
Proof.
  revert k. induction pool as [|x pool IH]; intros k Hext; simpl; [done|].
  rewrite (Hext k) by lia. rewrite (IH (S k)); [done|].
  intros p Hp. apply Hext. lia.
Qed.

Lemma filter_index_all (keep : nat → bool) (k : nat) pool :
  (∀ p, (k ≤ p)%nat → keep p = true) → filter_index keep k pool = pool.
Proof.
  revert k. induction pool as [|x pool IH]; intros k Hall; simpl; [done|].
  rewrite (Hall k) by lia. f_equal. apply IH. intros p Hp. apply Hall. lia.
Qed.

Lemma filter_index_sublist (keep : nat → bool) (k : nat) pool :
  filter_index keep k pool `sublist_of` pool.
Proof.
  revert k. induction pool as [|x pool IH]; intros k; simpl; [done|].
  destruct (keep k); [by apply sublist_skip|by apply sublist_cons].
Qed.

(** Removing position [k + n] first and then filtering on smaller
    positions is filtering on all of them at once. *)
Lemma filter_index_delete indices pool : ∀ (k n : nat),
  Forall (λ j, j < Z.of_nat (k + n)) indices →
  filter_index (λ i, bool_decide (Z.of_nat i ∉ indices)) k (delete n pool) =
  filter_index (λ i, bool_decide (Z.of_nat i ∉ Z.of_nat (k + n) :: indices)) k pool.
Proof.
  induction pool as [|x pool IH]; intros k n Hlt; [by destruct n|].
  rewrite Forall_forall in Hlt.
  destruct n as [|n]; simpl.
  - rewrite Nat.add_0_r in *.
    rewrite (bool_decide_eq_false_2 (Z.of_nat k ∉ Z.of_nat k :: indices))
      by (intros Hn; apply Hn; left).
    rewrite !filter_index_all; [done| |].
    + intros p Hp. apply bool_decide_eq_true_2.
      intros [?|Hin]%elem_of_cons; [lia|]. apply Hlt in Hin. lia.
    + intros p Hp. apply bool_decide_eq_true_2.
      intros Hin. apply Hlt in Hin. lia.
  - assert (bool_decide (Z.of_nat k ∉ Z.of_nat (k + S n) :: indices)
            = bool_decide (Z.of_nat k ∉ indices)) as ->.
    { apply bool_decide_ext. rewrite not_elem_of_cons. split; [tauto|].
      intros ?. split; [lia|done]. }
    replace (k + S n)%nat with (S k + n)%nat by lia.
    rewrite <- (IH (S k) n).
    + done.
    + apply Forall_forall. intros j Hj. apply Hlt in Hj. lia.
Qed.

Lemma splice1_in_range (i : Z) pool :
  0 ≤ i < Z.of_nat (length pool) →
  splice1 i pool = (delete (Z.to_nat i) pool, pool !! Z.to_nat i).
Proof.
  intros Hi. unfold splice1.
  destruct (i <? 0) eqn:Hneg; [lia|]. by rewrite Z.min_l by lia.
Qed.

(** Deleting at strictly descending positions never disturbs a position
    still to be deleted. *)
Lemma delete_each_descending indices : ∀ pool,
  StronglySorted (λ a b, b < a) indices →
  Forall (λ i, 0 ≤ i < Z.of_nat (length pool)) indices →
  delete_each indices pool =
    (keep_unlisted indices pool, (λ i, pool !! Z.to_nat i) <$> indices) ∧
  length (keep_unlisted indices pool) = (length pool - length indices)%nat.
Proof.
  induction indices as [|i rest IH]; intros pool Hsorted Hrange.
  - simpl. unfold keep_unlisted. rewrite filter_index_all.
    + split; [done|lia].
    + intros p _. apply bool_decide_eq_true_2, not_elem_of_nil.
  - apply StronglySorted_inv in Hsorted as [Hsorted Hbelow].
    apply Forall_cons in Hrange as [Hi Hrange].
    cbn [delete_each fmap list_fmap]. rewrite splice1_in_range by done.
    assert (length (delete (Z.to_nat i) pool) = (length pool - 1)%nat) as Hlen.
    { apply length_delete, lookup_lt_is_Some_2. lia. }
    destruct (IH (delete (Z.to_nat i) pool)) as [-> Hlen']; [done| |].
    { rewrite Hlen. rewrite Forall_forall in *.
      intros j Hj. specialize (Hbelow j Hj). specialize (Hrange j Hj). lia. }
    assert (keep_unlisted rest (delete (Z.to_nat i) pool)
            = keep_unlisted (i :: rest) pool) as Hkeep.
    { unfold keep_unlisted.
      rewrite (filter_index_delete rest pool 0 (Z.to_nat i)).
      - simpl. by rewrite Z2Nat.id by lia.
      - simpl. rewrite Z2Nat.id by lia. done. }
    rewrite <- Hkeep. split.
    + f_equal. f_equal. apply Forall_fmap_ext.
      rewrite Forall_forall in *. intros j Hj.
      specialize (Hbelow j Hj). specialize (Hrange j Hj).
      apply list_lookup_delete_lt. lia.
    + rewrite Hlen', Hlen. simpl. lia.
Qed.

Lemma keep_unlisted_perm indices indices' pool :
  indices ≡ₚ indices' → keep_unlisted indices pool = keep_unlisted indices' pool.
Proof.
  intros Hperm. apply filter_index_ext. intros p _.
  apply bool_decide_ext. by rewrite Hperm.
Qed.

Lemma sorted_distinct indices :
  NoDup indices → StronglySorted desc indices →
  StronglySorted (λ a b, b < a) indices.
Proof.
  induction indices as [|i rest IH]; intros Hnd Hs; [constructor|].
  apply NoDup_cons in Hnd as [Hi Hnd].
  apply StronglySorted_inv in Hs as [Hs Hbelow].
  constructor; [by apply IH|].
  rewrite Forall_forall in *. intros j Hj. specialize (Hbelow j Hj).
  unfold desc in Hbelow. assert (j ≠ i) by (by intros ->). lia.
Qed.

(** The sort followed by the deletion loop, on distinct valid positions. *)
Lemma delete_sorted indices pool :
  NoDup indices →
  Forall (λ i, 0 ≤ i < Z.of_nat (length pool)) indices →
  delete_each (sort_descending indices) pool =
    (keep_unlisted indices pool,
     (λ i, pool !! Z.to_nat i) <$> sort_descending indices) ∧
  length (keep_unlisted indices pool) = (length pool - length indices)%nat.
Proof.
  intros Hnd Hrange.
  assert (sort_descending indices ≡ₚ indices) as Hperm
    by apply merge_sort_Permutation.
  destruct (delete_each_descending (sort_descending indices) pool) as [-> Hlen].
  - apply sorted_distinct; [by rewrite Hperm|apply StronglySorted_merge_sort; apply _].
  - by rewrite Hperm.
  - rewrite (keep_unlisted_perm _ _ _ Hperm) in *. split; [done|].
    by rewrite Hlen, Hperm.
Qed.
End removal.

Section requests.
Implicit Types (len : nat) (ns indices : list Z).

Lemma pushed_indices len ns :
  let pushed := omap (λ index, let idx := js_pred index in
                               if in_range len idx then idx else None)
                     (Some <$> ns) in
  (length pushed ≤ length ns)%nat ∧
  (Forall (λ i, 0 ≤ i < Z.of_nat len) ((λ n, n - 1) <$> ns) →
     pushed = (λ n, n - 1) <$> ns) ∧
  (Exists (λ i, ¬ 0 ≤ i < Z.of_nat len) ((λ n, n - 1) <$> ns) →
     (length pushed < length ns)%nat).
Proof.
  cbn zeta. set (f := λ index : option Z, _).
  induction ns as [|n ns (Hle & Hall & Hex)].
  - split; [done|]. split; [done|]. by intros ?%Exists_nil.
  - change (omap f (Some <$> n :: ns))
      with (match f (Some n) with
            | Some y => y :: omap f (Some <$> ns)
            | None => omap f (Some <$> ns)
            end).
    assert (f (Some n) = if (0 <=? n - 1) && (n - 1 <? Z.of_nat len)
                         then Some (n - 1) else None) as -> by done.
    rewrite fmap_cons.
    destruct ((0 <=? n - 1) && (n - 1 <? Z.of_nat len)) eqn:Htest.
    + split; [simpl; lia|]. split.
      * intros [_ Hrest]%Forall_cons. by rewrite Hall.
      * intros [Hbad|Hrest]%Exists_cons; [lia|]. specialize (Hex Hrest).
        simpl. lia.
    + split; [simpl; lia|]. split.
      * intros [Hn _]%Forall_cons. lia.
      * intros _. simpl. lia.
Qed.

Lemma indicesToDelete_requested len args indices :
  requested args = Some indices →
  (Forall (λ i, 0 ≤ i < Z.of_nat len) indices →
     indicesToDelete len args = inr indices) ∧
  (Exists (λ i, ¬ 0 ≤ i < Z.of_nat len) indices →
     ∃ r, r ∈ [InvalidRange; InvalidIndices; InvalidIndex] ∧
          indicesToDelete len args = inl r).
Proof.
  destruct args as [|wf [first|] [last|]|items|[n|]|]; simpl; try done.
  - destruct wf; [|done]. destruct (first <=? last) eqn:Hfl; [|done].
    intros [= <-]. split.
    + intros Hall. rewrite Forall_seqZ in Hall.
      pose proof (Hall (first - 1) ltac:(lia)).
      pose proof (Hall (last - 1) ltac:(lia)).
      destruct (_ && _) eqn:Htest; [|lia]. do 2 f_equal. lia.
    + intros (i & Hi & Hbad)%Exists_exists. apply elem_of_seqZ in Hi.
      destruct (_ && _) eqn:Htest; [lia|].
      exists InvalidRange. split; [by left|done].
  - destruct wf; done.
  - destruct wf; done.
  - destruct wf; done.
  - destruct (mapM id items) as [ns|] eqn:Hns; [|done]. simpl.
    intros [= <-].
    assert (Some <$> ns = items) as <-.
    { eapply mapM_fmap_Some_inv; [done|]. intros x y Hx. by rewrite <- Hx. }
    destruct (pushed_indices len ns) as (Hle & Hall & Hex). cbn zeta in *.
    rewrite length_fmap. split.
    + intros Hok. rewrite (Hall Hok), length_fmap.
      by rewrite bool_decide_eq_false_2 by (intros Hn; by apply Hn).
    + intros Hbad. specialize (Hex Hbad).
      rewrite bool_decide_eq_true_2 by lia.
      exists InvalidIndices. split; [right; by left|done].
  - intros [= <-]. unfold in_range. simpl. split.
    + intros [Hn _]%Forall_cons. destruct (_ && _) eqn:Htest; [done|lia].
    + intros [Hbad|Hnil]%Exists_cons; [|by apply Exists_nil in Hnil].
      destruct (_ && _) eqn:Htest; [lia|].
      exists InvalidIndex. split; [right; right; by left|done].
Qed.
End requests.

(** What the shared body of the bulk-delete commands does with a request
    naming the positions [indices], for either pool. *)
Lemma delete_many_requested {A} (args : delete_args) (pool : list A)
    (indices : list Z) :
  pool ≠ [] →
  requested args = Some indices →
  (Exists (λ i, ¬ 0 ≤ i < Z.of_nat (length pool)) indices →
     ∃ r, r ∈ [InvalidRange; InvalidIndices; InvalidIndex] ∧
          delete_many args pool = inl r) ∧
  (Forall (λ i, 0 ≤ i < Z.of_nat (length pool)) indices → NoDup indices →
     delete_many args pool =
       inr (keep_unlisted indices pool,
            (λ i, pool !! Z.to_nat i) <$> sort_descending indices)).
Proof.
  intros Hne Hreq.
  destruct (indicesToDelete_requested (length pool) args indices Hreq) as [Hok Hbad].
  assert ((length pool =? 0)%nat = false) as Hlen.
  { apply Nat.eqb_neq. by destruct pool. }
  unfold delete_many. rewrite Hlen. split.
  - intros (r & Hr & ->)%Hbad. by exists r.
  - intros Hrange Hnd. rewrite (Hok Hrange).
    by destruct (delete_sorted indices pool Hnd Hrange) as [-> _].
Qed.

(** The image pool is handled by the same code as the video pool. *)
Lemma deleteimages_removes (ctx : context) (s : state) (args : delete_args)
    (indices : list Z) :
  isAdmin ctx = true →
  images s ≠ [] →
  requested args = Some indices →
  Forall (λ i, 0 ≤ i < Z.of_nat (length (images s))) indices →
  NoDup indices →
  deleteimages ctx args s =
    emit (Reply (DeletedCount (length indices)))
      (saveImages (set_images (keep_unlisted indices (images s)) s)).
Proof.
  intros Hadmin Hne Hreq Hrange Hnd.
  destruct (delete_many_requested args (images s) indices Hne Hreq) as [_ Hdel].
  unfold deleteimages. rewrite Hadmin, (Hdel Hrange Hnd). cbn [negb].
  rewrite length_fmap. f_equal. f_equal. f_equal.
  apply Permutation_length, merge_sort_Permutation.
Qed.

(** C7.  Bulk removal, for each of the two commands [deletevideos] and
    [deleteimages] and its pool.  For a request naming the 0-based
    positions [indices] of a non-empty pool: if some position is outside
    [0, length) the command is refused with an invalid-index reply and the
    state is unchanged apart from that reply.  If all are inside and
    pairwise distinct, they are deleted in strictly descending order, the
    removed entries are those at the listed positions, the pool that
    remains is the original one without the listed positions, in the
    original order and shorter by their number, and the file of that pool
    is written exactly once, with that pool.  Removing positions 1 and 3 of
    five entries leaves entries 0, 2 and 4. *)
Theorem removeMany_validates_then_removes
    (ctx : context) (s : state) (args : delete_args) (indices : list Z) :
  isAdmin ctx = true →
  requested args = Some indices →
  (videos s ≠ [] →
   let pool := videos s in
   (Exists (λ i, ¬ 0 ≤ i < Z.of_nat (length pool)) indices →
      ∃ r, r ∈ [InvalidRange; InvalidIndices; InvalidIndex] ∧
           deletevideos ctx args s = emit (Reply r) s) ∧
   (Forall (λ i, 0 ≤ i < Z.of_nat (length pool)) indices →
    NoDup indices →
      let order := sort_descending indices in
      let remaining := keep_unlisted indices pool in
      StronglySorted (λ a b, b < a) order ∧
      order ≡ₚ indices ∧
      delete_many args pool = inr (remaining, (λ i, pool !! Z.to_nat i) <$> order) ∧
      remaining `sublist_of` pool ∧
      length remaining = (length pool - length indices)%nat ∧
      deletevideos ctx args s =
        emit (Reply (DeletedCount (length indices)))
          (saveVideos (set_videos remaining s)) ∧
      log (deletevideos ctx args s) =
        log s ++ [WriteVideos (fields <$> remaining);
                  Reply (DeletedCount (length indices))])) ∧
  (images s ≠ [] →
   let pool := images s in
   (Exists (λ i, ¬ 0 ≤ i < Z.of_nat (length pool)) indices →
      ∃ r, r ∈ [InvalidRange; InvalidIndices; InvalidIndex] ∧
           deleteimages ctx args s = emit (Reply r) s) ∧
   (Forall (λ i, 0 ≤ i < Z.of_nat (length pool)) indices →
    NoDup indices →
      let order := sort_descending indices in
      let remaining := keep_unlisted indices pool in
      StronglySorted (λ a b, b < a) order ∧
      order ≡ₚ indices ∧
      delete_many args pool = inr (remaining, (λ i, pool !! Z.to_nat i) <$> order) ∧
      remaining `sublist_of` pool ∧
      length remaining = (length pool - length indices)%nat ∧
      deleteimages ctx args s =
        emit (Reply (DeletedCount (length indices)))
          (saveImages (set_images remaining s)) ∧
      log (deleteimages ctx args s) =
        log s ++ [WriteImages (fields <$> remaining);
                  Reply (DeletedCount (length indices))])).
Proof.
  intros Hadmin Hreq.
  assert (sort_descending indices ≡ₚ indices) as Hperm
    by apply merge_sort_Permutation.
  assert (NoDup indices → StronglySorted (λ a b, b < a) (sort_descending indices))
    as Hsorted.
  { intros Hnd. apply sorted_distinct; [by rewrite Hperm|].
    apply StronglySorted_merge_sort; apply _. }
  split.
  - intros Hne pool.
    destruct (delete_many_requested args pool indices Hne Hreq) as [Hbad Hok].
    split.
    + intros (r & Hr & Hrefuse)%Hbad. exists r. split; [done|].
      unfold deletevideos. fold pool. by rewrite Hadmin, Hrefuse.
    + intros Hrange Hnd order remaining.
      destruct (delete_sorted indices pool Hnd Hrange) as [_ Hsize].
      specialize (Hok Hrange Hnd).
      assert (deletevideos ctx args s =
              emit (Reply (DeletedCount (length indices)))
                (saveVideos (set_videos remaining s))) as Hcmd.
      { unfold deletevideos. fold pool. rewrite Hadmin, Hok. cbn [negb].
        by rewrite length_fmap, (Permutation_length Hperm). }
      split; [|split; [done|split; [done|split; [|split; [done|split; [done|]]]]]].
      * by apply Hsorted.
      * apply filter_index_sublist.
      * rewrite Hcmd. simpl. by rewrite <- app_assoc.
  - intros Hne pool.
    destruct (delete_many_requested args pool indices Hne Hreq) as [Hbad Hok].
    split.
    + intros (r & Hr & Hrefuse)%Hbad. exists r. split; [done|].
      unfold deleteimages. fold pool. by rewrite Hadmin, Hrefuse.
    + intros Hrange Hnd order remaining.
      destruct (delete_sorted indices pool Hnd Hrange) as [_ Hsize].
      specialize (Hok Hrange Hnd).
      assert (deleteimages ctx args s =
              emit (Reply (DeletedCount (length indices)))
                (saveImages (set_images remaining s))) as Hcmd.
      { unfold deleteimages. fold pool. rewrite Hadmin, Hok. cbn [negb].
        by rewrite length_fmap, (Permutation_length Hperm). }
      split; [|split; [done|split; [done|split; [|split; [done|split; [done|]]]]]].
      * by apply Hsorted.
      * apply filter_index_sublist.
      * rewrite Hcmd. simpl. by rewrite <- app_assoc.
Qed.

Lemma removeMany_validates_then_removes_witness :
  let s := five_of_each in
  let args := ListText [Some 2; Some 4] in
  let indices := [1; 3] in
  (videos s ≠ [] →
   let pool := videos s in
   (Exists (λ i, ¬ 0 ≤ i < Z.of_nat (length pool)) indices →
      ∃ r, r ∈ [InvalidRange; InvalidIndices; InvalidIndex] ∧
           deletevideos admin_ctx args s = emit (Reply r) s) ∧
   (Forall (λ i, 0 ≤ i < Z.of_nat (length pool)) indices →
    NoDup indices →
      let order := sort_descending indices in
      let remaining := keep_unlisted indices pool in
      StronglySorted (λ a b, b < a) order ∧
      order ≡ₚ indices ∧
      delete_many args pool = inr (remaining, (λ i, pool !! Z.to_nat i) <$> order) ∧
      remaining `sublist_of` pool ∧
      length remaining = (length pool - length indices)%nat ∧
      deletevideos admin_ctx args s =
        emit (Reply (DeletedCount (length indices)))
          (saveVideos (set_videos remaining s)) ∧
      log (deletevideos admin_ctx args s) =
        log s ++ [WriteVideos (fields <$> remaining);
                  Reply (DeletedCount (length indices))])) ∧
  (images s ≠ [] →
   let pool := images s in
   (Exists (λ i, ¬ 0 ≤ i < Z.of_nat (length pool)) indices →
      ∃ r, r ∈ [InvalidRange; InvalidIndices; InvalidIndex] ∧
           deleteimages admin_ctx args s = emit (Reply r) s) ∧
   (Forall (λ i, 0 ≤ i < Z.of_nat (length pool)) indices →
    NoDup indices →
      let order := sort_descending indices in
      let remaining := keep_unlisted indices pool in
      StronglySorted (λ a b, b < a) order ∧
      order ≡ₚ indices ∧
      delete_many args pool = inr (remaining, (λ i, pool !! Z.to_nat i) <$> order) ∧
      remaining `sublist_of` pool ∧
      length remaining = (length pool - length indices)%nat ∧
      deleteimages admin_ctx args s =
        emit (Reply (DeletedCount (length indices)))
          (saveImages (set_images remaining s)) ∧
      log (deleteimages admin_ctx args s) =
        log s ++ [WriteImages (fields <$> remaining);
                  Reply (DeletedCount (length indices))])).
Proof.
  apply (removeMany_validates_then_removes admin_ctx five_of_each
           (ListText [Some 2; Some 4]) [1; 3]).
  - reflexivity.
  - reflexivity.
Defined.

Example remove_1_3_of_five :
  let s' := deletevideos admin_ctx (ListText [Some 2; Some 4]) five_videos in
  media_id ∘ fields <$> videos s' = ["v0"; "v2"; "v4"] ∧
  videosFile s' = fields <$> videos s' ∧
  videos (deletevideos admin_ctx (ListText [Some 2; Some 9]) five_videos)
    = videos five_videos.
Proof. vm_compute. done. Qed.

(** The same request to [deleteimages], on five videos and five images:
    images 1 and 3 go, the videos stay, the image file is written once; a
    request with a position outside the pool only gets the refusal, and so
    does any request when there are no images. *)
Example remove_1_3_of_five_images :
  let s' := deleteimages admin_ctx (ListText [Some 2; Some 4]) five_of_each in
  media_id ∘ fields <$> images s' = ["i0"; "i2"; "i4"] ∧
  imagesFile s' = fields <$> images s' ∧
  videos s' = videos five_of_each ∧
  log s' = [WriteImages (fields <$> images s'); Reply (DeletedCount 2)] ∧
  deleteimages admin_ctx (ListText [Some 2; Some 9]) five_of_each
    = emit (Reply InvalidIndices) five_of_each ∧
  deleteimages admin_ctx (RangeText true (Some 4) (Some 6)) five_of_each
    = emit (Reply InvalidRange) five_of_each ∧
  deleteimages admin_ctx (NumberText (Some 6)) five_of_each
    = emit (Reply InvalidIndex) five_of_each ∧
  deleteimages admin_ctx (NumberText (Some 1)) five_videos
    = emit (Reply NothingToDelete) five_videos.
Proof. vm_compute. done. Qed.

(** Repeating a number in the list form removes a neighbour as well. *)
Example repeated_index_removes_neighbour :
  media_id ∘ fields <$>
    videos (deletevideos admin_ctx (ListText [Some 1; Some 1]) five_videos)
  = ["v2"; "v3"; "v4"].
Proof. vm_compute. done. Qed.

Section persistence.
Implicit Types (s : state) (o : op).

Lemma untouched_refl s : persisted_or_untouched s s.
Proof. repeat split; by left. Qed.


Lemma job_callback_untouched j r s :
  persisted_or_untouched s (job_callback j r s).
Proof.
  unfold job_callback. repeat case_match; repeat split; by left.
Qed.

Lemma run_due_untouched minute rnd js : ∀ h s,
  videos (run_due minute rnd h js s) = videos s ∧
  videosFile (run_due minute rnd h js s) = videosFile s ∧
  images (run_due minute rnd h js s) = images s ∧
  imagesFile (run_due minute rnd h js s) = imagesFile s ∧
  scheduleData (run_due minute rnd h js s) = scheduleData s ∧
  schedulesFile (run_due minute rnd h js s) = schedulesFile s.
Proof.
  induction js as [|j js IH]; intros h s; simpl; [done|].
  destruct (IH (S h) (if fires minute j then job_callback j (rnd h) s else s))
    as (-> & -> & -> & -> & -> & ->).
  destruct (fires minute j); [|done].
  unfold job_callback. repeat case_match; done.
Qed.




Lemma fields_imap (f : nat → nat) (l : list media) :
  fields <$> imap (λ i m, Obj (f i) m) l = l.
Proof.
  apply list_eq. intros i.
  rewrite list_lookup_fmap, list_lookup_imap. by destruct (l !! i).
Qed.

End persistence.


Section adding.
Implicit Types (s : state) (pool : list mediaObj).

Lemma find_by_id_Some pool ref :
  ref ∈ media_id ∘ fields <$> pool →
  ∃ i existing,
    list_find (λ x, media_id (fields x) = ref) pool = Some (i, existing) ∧
    existing ∈ pool ∧ media_id (fields existing) = ref.
Proof.
  intros (x & Hx & Hin)%list_elem_of_fmap. simpl in Hx.
  destruct (list_find_elem_of (λ x, media_id (fields x) = ref) pool x)
    as [[i existing] Hfind]; [done|done|].
  exists i, existing. split; [done|].
  apply list_find_Some in Hfind as (Hi & Hid & _).
  split; [by eapply list_elem_of_lookup_2|done].
Qed.

Lemma find_by_id_None pool ref :
  ref ∉ media_id ∘ fields <$> pool →
  list_find (λ x, media_id (fields x) = ref) pool = None.
Proof.
  intros Hnot. apply list_find_None, Forall_forall. intros x Hx Hid.
  apply Hnot, list_elem_of_fmap. by exists x.
Qed.
End adding.

(** C8.  Adding an entry whose file id is already in the pool is answered
    with the already-exists reply and changes nothing else; adding a new
    file id appends one new object at the end of the pool, leaves the other
    pool alone and writes the pool's file.  Videos and photos alike. *)
Theorem add_rejects_duplicate_reference
    (ctx : context) (ref : string) (photos : list string) (cap : option string)
    (now : string) (s : state) :
  isAdmin ctx = true →
  (let s' := on_video ctx ref cap now s in
   (ref ∈ media_id ∘ fields <$> videos s →
      ∃ existing, existing ∈ videos s ∧ media_id (fields existing) = ref ∧
                  s' = emit (Reply (VideoExists (addedAt (fields existing)))) s) ∧
   (ref ∉ media_id ∘ fields <$> videos s →
      videos s' = videos s ++
        [Obj (next_addr s) (Media ref "video" (default EmptyString cap) now)] ∧
      images s' = images s ∧
      videosFile s' = fields <$> videos s' ∧
      log s' = log s ++ [WriteVideos (fields <$> videos s'); Reply VideoAdded])) ∧
  (let s' := on_photo ctx (photos ++ [ref]) cap now s in
   (ref ∈ media_id ∘ fields <$> images s →
      ∃ existing, existing ∈ images s ∧ media_id (fields existing) = ref ∧
                  s' = emit (Reply (ImageExists (addedAt (fields existing)))) s) ∧
   (ref ∉ media_id ∘ fields <$> images s →
      images s' = images s ++
        [Obj (next_addr s) (Media ref "image" (default EmptyString cap) now)] ∧
      videos s' = videos s ∧
      imagesFile s' = fields <$> images s' ∧
      log s' = log s ++ [WriteImages (fields <$> images s'); Reply ImageAdded])).
Proof.
  intros Hadmin. split; cbn zeta.
  - unfold on_video. rewrite Hadmin. cbn [negb]. split.
    + intros (i & existing & -> & Hin & Hid)%find_by_id_Some. by exists existing.
    + intros ->%find_by_id_None. simpl. by rewrite <- app_assoc.
  - unfold on_photo. rewrite Hadmin, last_snoc. cbn [negb]. split.
    + intros (i & existing & -> & Hin & Hid)%find_by_id_Some. by exists existing.
    + intros ->%find_by_id_None. simpl. by rewrite <- app_assoc.
Qed.

Lemma add_rejects_duplicate_reference_witness :
  let ctx := admin_ctx in
  let ref := "v3" in
  let photos := ["small"; "medium"] in
  let cap := Some "again" in
  let now := "2024-02-01T00:00:00.000Z" in
  let s := five_videos in
  (let s' := on_video ctx ref cap now s in
   (ref ∈ media_id ∘ fields <$> videos s →
      ∃ existing, existing ∈ videos s ∧ media_id (fields existing) = ref ∧
                  s' = emit (Reply (VideoExists (addedAt (fields existing)))) s) ∧
   (ref ∉ media_id ∘ fields <$> videos s →
      videos s' = videos s ++
        [Obj (next_addr s) (Media ref "video" (default EmptyString cap) now)] ∧
      images s' = images s ∧
      videosFile s' = fields <$> videos s' ∧
      log s' = log s ++ [WriteVideos (fields <$> videos s'); Reply VideoAdded])) ∧
  (let s' := on_photo ctx (photos ++ [ref]) cap now s in
   (ref ∈ media_id ∘ fields <$> images s →
      ∃ existing, existing ∈ images s ∧ media_id (fields existing) = ref ∧
                  s' = emit (Reply (ImageExists (addedAt (fields existing)))) s) ∧
   (ref ∉ media_id ∘ fields <$> images s →
      images s' = images s ++
        [Obj (next_addr s) (Media ref "image" (default EmptyString cap) now)] ∧
      videos s' = videos s ∧
      imagesFile s' = fields <$> images s' ∧
      log s' = log s ++ [WriteImages (fields <$> images s'); Reply ImageAdded])).
Proof.
  apply (add_rejects_duplicate_reference admin_ctx "v3" ["small"; "medium"]
           (Some "again") "2024-02-01T00:00:00.000Z" five_videos).
  reflexivity.
Defined.

Example add_existing_video_changes_nothing :
  let s' := on_video admin_ctx "v3" None "2024-02-01T00:00:00.000Z" five_videos in
  videos s' = videos five_videos ∧ videosFile s' = videosFile five_videos ∧
  log s' = [Reply (VideoExists "2024-01-04T00:00:00.000Z")].
Proof. vm_compute. done. Qed.

Example add_new_video_appends :
  let s' := on_video admin_ctx "v5" (Some "five") "2024-02-01T00:00:00.000Z"
              five_videos in
  length (videos s') = 6%nat ∧
  last (videos s')
    = Some (Obj 5 (Media "v5" "video" "five" "2024-02-01T00:00:00.000Z")) ∧
  videosFile s' = fields <$> videos s'.
Proof. vm_compute. done. Qed.

(** C10.  On an empty candidate list [getNextUnsentMedia] finds nothing
    unsent, replaces the chat's set by the empty set whatever it held, and
    returns [undefined]; this is also what a call from a tick on an empty
    resolved list would do, but the tick does not call: it leaves the whole
    state, tracker included, as it was. *)
Theorem empty_candidate_list_clears_tracker
    (c : string) (t : gmap string (gset Z)) (j : job) (r : sample) (s : state) :
  mediaToSend (job_mediaType j) s = [] →
  getNextUnsentMedia c [] r t = (<[c := ∅]> t, None) ∧
  sent_of c (getNextUnsentMedia c [] r t).1 = ∅ ∧
  getNextUnsentMedia (job_chat j) (mediaToSend (job_mediaType j) s) r
      (sentMediaTracking s)
    = (<[job_chat j := ∅]> (sentMediaTracking s), None) ∧
  job_callback j r s = s.
Proof.
  intros Hempty. split; [done|]. split; [apply sent_of_insert|].
  split; [by rewrite Hempty|].
  unfold job_callback. by rewrite Hempty.
Qed.

Lemma empty_candidate_list_clears_tracker_witness :
  let c := "chat1" in
  let t : gmap string (gset Z) := {["chat1" := {[0; 1]}]} in
  let j := Job "chat1" 5 "images" false in
  let r := Sample 1 2 in
  let s := mid_cycle in
  getNextUnsentMedia c [] r t = (<[c := ∅]> t, None) ∧
  sent_of c (getNextUnsentMedia c [] r t).1 = ∅ ∧
  getNextUnsentMedia (job_chat j) (mediaToSend (job_mediaType j) s) r
      (sentMediaTracking s)
    = (<[job_chat j := ∅]> (sentMediaTracking s), None) ∧
  job_callback j r s = s.
Proof.
  apply (empty_candidate_list_clears_tracker "chat1" {["chat1" := {[0; 1]}]}
           (Job "chat1" 5 "images" false) (Sample 1 2) mid_cycle).
  reflexivity.
Defined.

Section pools.
Implicit Types (s : state).

Lemma wf_pools_shrink s s' :
  videos s' `sublist_of` videos s →
  images s' `sublist_of` images s →
  next_addr s' = next_addr s →
  wf_pools s → wf_pools s'.
Proof.
  intros Hv Hi Hn [Hnd Hlt].
  assert (videos s' ++ images s' `sublist_of` videos s ++ images s) as Hsub
    by (by apply sublist_app).
  split.
  - eapply sublist_NoDup; [exact Hnd|]. by apply fmap_sublist.
  - rewrite Hn. rewrite Forall_forall in *. intros x Hx.
    apply Hlt. by eapply elem_of_sublist.
Qed.

Lemma wf_pools_alloc s (vids imgs : list mediaObj) m :
  wf_pools s →
  (vids ++ imgs ≡ₚ Obj (next_addr s) m :: (videos s ++ images s)) →
  NoDup (addr <$> vids ++ imgs) ∧
  Forall (λ x, (addr x < S (next_addr s))%nat) (vids ++ imgs).
Proof.
  intros [Hnd Hlt] Hperm. rewrite Hperm. split.
  - rewrite fmap_cons. apply NoDup_cons. split; [|done]. simpl.
    intros (x & Hx & Hin)%list_elem_of_fmap.
    rewrite Forall_forall in Hlt. specialize (Hlt x Hin). lia.
  - constructor; [simpl; lia|].
    eapply Forall_impl; [exact Hlt|]. simpl. lia.
Qed.

Lemma delete_each_sublist {A} (indices : list Z) : ∀ pool : list A,
  (delete_each indices pool).1 `sublist_of` pool.
Proof.
  induction indices as [|i rest IH]; intros pool; [done|].
  cbn [delete_each]. destruct (splice1 i pool) as [pool1 d] eqn:Hs.
  specialize (IH pool1). destruct (delete_each rest pool1) as [pool2 ds].
  simpl in *. etrans; [exact IH|].
  unfold splice1 in Hs. injection Hs as <- _. apply sublist_delete.
Qed.

Lemma delete_one_sublist {A} wf index (pool pool' : list A) :
  delete_one wf index pool = inr pool' → pool' `sublist_of` pool.
Proof.
  unfold delete_one. repeat case_match; try done.
  intros [= <-]. simpl. apply sublist_delete.
Qed.

Lemma delete_many_sublist {A} args (pool pool' : list A) ds :
  delete_many args pool = inr (pool', ds) → pool' `sublist_of` pool.
Proof.
  unfold delete_many. repeat case_match; try done.
  intros [= Heq]. change pool' with (pool', ds).1.
  rewrite <- Heq. apply delete_each_sublist.
Qed.

Lemma step_wf_pools o s : wf_pools s → wf_pools (step o s).
Proof.
  intros Hwf. destruct o; simpl.
  - unfold on_video, new_object. repeat case_match; try done.
    unfold wf_pools. simpl. eapply wf_pools_alloc; [done|].
    rewrite <- app_assoc. simpl. symmetry. apply Permutation_middle.
  - unfold on_photo, new_object. repeat case_match; try done.
    unfold wf_pools. simpl. eapply wf_pools_alloc; [done|].
    rewrite app_assoc. symmetry. apply Permutation_cons_append.
  - unfold deletevideo. repeat case_match; try done.
    eapply wf_pools_shrink; [| | |done]; simpl; [|done..].
    by eapply delete_one_sublist.
  - unfold deleteimage. repeat case_match; try done.
    eapply wf_pools_shrink; [| | |done]; simpl; [done| |done].
    by eapply delete_one_sublist.
  - unfold deletevideos. repeat case_match; try done.
    eapply wf_pools_shrink; [| | |done]; simpl; [|done..].
    by eapply delete_many_sublist.
  - unfold deleteimages. repeat case_match; try done.
    eapply wf_pools_shrink; [| | |done]; simpl; [done| |done].
    by eapply delete_many_sublist.
  - unfold schedule_command. repeat case_match; done.
  - unfold on_action. repeat case_match; done.
  - unfold on_text, createScheduledJob. repeat case_match; done.
  - unfold stop. repeat case_match; done.
  - unfold elapse_minute.
    destruct (run_due_untouched minute rnd (jobs s) 0%nat s) as (Hv & _ & Hi & _).
    destruct Hwf as [Hnd Hlt]. unfold wf_pools. rewrite Hv, Hi.
    assert (next_addr (run_due minute rnd 0 (jobs s) s) = next_addr s) as ->; [|done].
    generalize 0%nat. generalize (jobs s) at 1. clear.
    intros js. revert s. induction js as [|j js IH]; intros s h; simpl; [done|].
    rewrite IH. destruct (fires minute j); [|done].
    unfold job_callback. repeat case_match; done.
Qed.

Lemma startup_wf_pools clock vj ij sj : wf_pools (startup clock vj ij sj).
Proof.
  assert (∀ ks s, wf_pools s → wf_pools (rearm clock ks s)) as Hrearm.
  { unfold rearm. induction ks as [|k ks IH]; intros s Hwf; simpl; [done|].
    apply IH. unfold createScheduledJob. repeat case_match; done. }
  apply Hrearm. unfold load, wf_pools. simpl.
  assert (addr <$> imap (λ i m, Obj i m) vj
                   ++ imap (λ i m, Obj (length vj + i) m) ij
          = seq 0 (length vj + length ij)) as Haddr.
  { rewrite fmap_app, seq_app, !fmap_imap. f_equal.
    - apply list_eq. intros i. rewrite list_lookup_imap. simpl.
      destruct (vj !! i) eqn:Hi; simpl.
      + by rewrite lookup_seq_lt by (by eapply lookup_lt_Some).
      + by rewrite lookup_seq_ge by (by apply lookup_ge_None).
    - apply list_eq. intros i. rewrite list_lookup_imap. simpl.
      destruct (ij !! i) eqn:Hi; simpl.
      + by rewrite lookup_seq_lt by (by eapply lookup_lt_Some).
      + by rewrite lookup_seq_ge by (by apply lookup_ge_None). }
  split.
  - rewrite Haddr. apply NoDup_seq.
  - apply Forall_forall. intros x Hx.
    assert (addr x ∈ seq 0 (length vj + length ij)) as Hin.
    { rewrite <- Haddr. by apply list_elem_of_fmap_2. }
    apply elem_of_seq in Hin. lia.
Qed.

Lemma reachable_wf_pools clock vj ij sj ops :
  wf_pools (run ops (startup clock vj ij sj)).
Proof.
  generalize (startup_wf_pools clock vj ij sj).
  generalize (startup clock vj ij sj). unfold run.
  induction ops as [|o ops IH]; intros s Hwf; simpl; [done|].
  by apply IH, step_wf_pools.
Qed.

(** The candidate list of a tick never holds the same object twice. *)
Lemma candidates_distinct clock vj ij sj ops mediaType :
  NoDup (addr <$> mediaToSend mediaType (run ops (startup clock vj ij sj))).
Proof.
  destruct (reachable_wf_pools clock vj ij sj ops) as [Hnd _].
  pose proof Hnd as Hboth.
  rewrite fmap_app in Hnd. apply NoDup_app in Hnd as (Hv & _ & Hi).
  unfold mediaToSend. repeat case_match; try done. apply NoDup_nil_2.
Qed.
End pools.

(** * Further properties of the handlers *)

Section more_tracker.
Implicit Types (L : list mediaObj) (t : gmap string (gset Z)) (r : sample).

Lemma filter_index_elem {A} keep (k : nat) (l : list A) x :
  x ∈ filter_index keep k l → x ∈ l.
Proof. intros Hx. eapply elem_of_sublist; [done|apply filter_index_sublist]. Qed.

Lemma indexOf_member L m :
  m ∈ L → ∃ i : nat, indexOf L (Some m) = Z.of_nat i ∧ (i < length L)%nat.
Proof.
  intros Hm. unfold indexOf.
  destruct (list_find_elem_of (λ x, addr x = addr m) L m Hm eq_refl)
    as [[i x] Hfind].
  rewrite Hfind. exists i. split; [done|].
  apply list_find_Some in Hfind as (Hi & _). by eapply lookup_lt_Some.
Qed.

Lemma draws_app rs1 rs2 c L t :
  draws (rs1 ++ rs2) c L t =
    ((draws rs2 c L (draws rs1 c L t).1).1,
     (draws rs1 c L t).2 ++ (draws rs2 c L (draws rs1 c L t).1).2).
Proof.
  revert t. induction rs1 as [|r rs1 IH]; intros t; simpl.
  - by destruct (draws rs2 c L t).
  - destruct (getNextUnsentMedia c L r t) as [t1 x]. rewrite IH.
    destruct (draws rs1 c L t1) as [t2 xs]. simpl.
    by destruct (draws rs2 c L t2).
Qed.

Lemma draws_other_chat rs c c' L : ∀ t,
  c ≠ c' → (draws rs c L t).1 !! c' = t !! c'.
Proof.
  induction rs as [|r rs IH]; intros t Hne; simpl; [done|].
  destruct (getNextUnsentMedia c L r t) as [t1 x] eqn:Hd.
  specialize (IH t1 Hne). destruct (draws rs c L t1) as [t2 xs]. simpl in *.
  rewrite IH. unfold getNextUnsentMedia in Hd.
  destruct (length _ =? 0)%nat; injection Hd as <- _; by rewrite lookup_insert_ne.
Qed.

(** The positions still unmarked, in increasing order. *)
Lemma unmarked_positions (positions more : list nat) (n : nat) :
  NoDup (positions ++ more) →
  positions ++ more ≡ₚ seq 0 n →
  more ≡ₚ filter (λ i, i ∉ positions) (seq 0 n).
Proof.
  intros Hnd Hperm. apply NoDup_app in Hnd as (Hp & Hdisj & Hm).
  apply NoDup_Permutation; [done|apply NoDup_filter, NoDup_seq|].
  intros i. rewrite list_elem_of_filter, <- Hperm, elem_of_app. split.
  - intros Hi. split; [|by right]. intros Hin. by apply (Hdisj i).
  - intros [Hout [Hin|Hin]]; done.
Qed.

Lemma draws_rest c L rs t positions :
  NoDup (addr <$> L) →
  NoDup positions →
  Forall (λ i, (i < length L)%nat) positions →
  sent_of c t = marks positions →
  (length positions + length rs = length L)%nat →
  (draws rs c L t).2
    ≡ₚ (λ i, L !! i) <$> filter (λ i, i ∉ positions) (seq 0 (length L)) ∧
  ∀ i : nat, (i < length L)%nat → Z.of_nat i ∈ sent_of c (draws rs c L t).1.
Proof.
  intros HL Hnd Hall Hsent Hlen.
  destruct (draws_fresh c L rs HL t positions) as (more & Hnd' & Hm & Hml & -> & Hs);
    [done|lia|done|].
  assert (positions ++ more ≡ₚ seq 0 (length L)) as Hperm.
  { apply bounded_nodup_full; [done|by apply Forall_app|].
    rewrite length_app. lia. }
  split.
  - apply fmap_Permutation. by apply unmarked_positions.
  - intros i Hi. rewrite Hs. apply elem_of_marks. rewrite Hperm.
    apply elem_of_seq. lia.
Qed.
Lemma filter_all {A} (P : A → Prop) `{!∀ x, Decision (P x)} (l : list A) :
  (∀ x, P x) → filter P l = l.
Proof.
  intros HP. induction l as [|x l IH]; [done|].
  by rewrite filter_cons_True, IH.
Qed.

(** On a non-empty list a draw returns one of its entries, whatever the
    tracker holds. *)
Lemma selection_member c L r t :
  L ≠ [] → ∃ m, (getNextUnsentMedia c L r t).2 = Some m ∧ m ∈ L.
Proof.
  intros Hne. unfold getNextUnsentMedia.
  set (unsent := filter_index _ 0 L).
  destruct (length unsent =? 0)%nat eqn:Hz; simpl.
  - destruct (lookup_lt_is_Some_2 L (random_index r (length L))) as [m Hm].
    { apply random_index_lt. destruct L; [done|simpl; lia]. }
    exists m. split; [done|]. by eapply list_elem_of_lookup_2.
  - apply Nat.eqb_neq in Hz.
    destruct (lookup_lt_is_Some_2 unsent (random_index r (length unsent))) as [m Hm].
    { apply random_index_lt. lia. }
    exists m. split; [done|].
    eapply filter_index_elem, list_elem_of_lookup_2, Hm.
Qed.

Lemma draw_other_chat c c' L r t :
  c ≠ c' → (getNextUnsentMedia c L r t).1 !! c' = t !! c'.
Proof.
  intros Hne. unfold getNextUnsentMedia.
  destruct (length _ =? 0)%nat; simpl; by rewrite lookup_insert_ne.
Qed.

Lemma draw_marks_valid c L r t z :
  z ∈ sent_of c (getNextUnsentMedia c L r t).1 →
  z ∈ sent_of c t ∨ 0 ≤ z < Z.of_nat (length L).
Proof.
  unfold getNextUnsentMedia.
  set (unsent := filter_index _ 0 L).
  destruct (length unsent =? 0)%nat eqn:Hz; simpl; rewrite sent_of_insert.
  - by intros ?%not_elem_of_empty.
  - intros [Hold|Hnew%elem_of_singleton]%elem_of_union; [by left|right].
    apply Nat.eqb_neq in Hz.
    destruct (lookup_lt_is_Some_2 unsent (random_index r (length unsent))) as [m Hm].
    { apply random_index_lt. lia. }
    rewrite Hm in Hnew.
    destruct (indexOf_member L m) as (i & Hi & Hlt).
    { eapply filter_index_elem, list_elem_of_lookup_2, Hm. }
    lia.
Qed.

(** A whole cycle from the empty set. *)
Lemma draws_full c L rs t :
  NoDup (addr <$> L) →
  sent_of c t = ∅ →
  length rs = length L →
  (draws rs c L t).2 ≡ₚ Some <$> L ∧
  ∀ i : nat, (i < length L)%nat → Z.of_nat i ∈ sent_of c (draws rs c L t).1.
Proof.
  intros HL Hsent Hlen.
  destruct (draws_rest c L rs t [] HL) as [Hsel Hfull];
    [apply NoDup_nil_2|done|by rewrite Hsent|simpl; lia|].
  split; [|done].
  rewrite Hsel, filter_all by (intros i; apply not_elem_of_nil).
  by rewrite lookup_all_positions.
Qed.
End more_tracker.

(** X1.  One draw is safe whatever the tracker holds.  On a non-empty list
    [getNextUnsentMedia] always returns an entry of that list, never
    [undefined]; every position in the chat's set afterwards was there
    before or is a valid position of the list (-1 is never recorded); and
    the sets of all other chats are left as they were. *)
Theorem draw_is_safe
    (c : string) (L : list mediaObj) (r : sample) (t : gmap string (gset Z)) :
  L ≠ [] →
  let result := getNextUnsentMedia c L r t in
  (∃ m, result.2 = Some m ∧ m ∈ L) ∧
  (∀ z, z ∈ sent_of c result.1 → z ∈ sent_of c t ∨ 0 ≤ z < Z.of_nat (length L)) ∧
  (∀ c', c ≠ c' → result.1 !! c' = t !! c').
Proof.
  intros Hne result. split; [by apply selection_member|]. split.
  - intros z. apply draw_marks_valid.
  - intros c'. apply draw_other_chat.
Qed.

Lemma draw_is_safe_witness :
  let result := getNextUnsentMedia "X" [itemA; itemB; itemC] (Sample 2 1)
                  {["X" := {[1; 7; -1]}; "Y" := {[0]}]} in
  (∃ m, result.2 = Some m ∧ m ∈ [itemA; itemB; itemC]) ∧
  (∀ z, z ∈ sent_of "X" result.1 →
        z ∈ sent_of "X" ({["X" := {[1; 7; -1]}; "Y" := {[0]}]} : gmap string (gset Z))
        ∨ 0 ≤ z < Z.of_nat (length [itemA; itemB; itemC])) ∧
  (∀ c', "X" ≠ c' →
         result.1 !! c'
           = ({["X" := {[1; 7; -1]}; "Y" := {[0]}]} : gmap string (gset Z)) !! c').
Proof.
  apply (draw_is_safe "X" [itemA; itemB; itemC] (Sample 2 1)
           {["X" := {[1; 7; -1]}; "Y" := {[0]}]}).
  discriminate.
Defined.

(** X2.  Resuming inside a cycle.  If the chat's set marks k distinct valid
    positions of an unchanged list of n distinct objects, the next n - k
    draws return exactly the entries at the unmarked positions, each once,
    and afterwards every position is marked. *)
Theorem remaining_draws_cover_unsent
    (c : string) (L : list mediaObj) (t : gmap string (gset Z))
    (positions : list nat) (rs : list sample) :
  NoDup (addr <$> L) →
  NoDup positions →
  Forall (λ i, (i < length L)%nat) positions →
  sent_of c t = marks positions →
  (length positions + length rs = length L)%nat →
  let unsent := filter (λ i, i ∉ positions) (seq 0 (length L)) in
  (draws rs c L t).2 ≡ₚ (λ i, L !! i) <$> unsent ∧
  NoDup (draws rs c L t).2 ∧
  ∀ i : nat, (i < length L)%nat → Z.of_nat i ∈ sent_of c (draws rs c L t).1.
Proof.
  intros HL Hnd Hall Hsent Hlen unsent.
  destruct (draws_rest c L rs t positions HL Hnd Hall Hsent Hlen) as [Hsel Hfull].
  split; [done|]. split; [|done].
  rewrite Hsel. subst unsent.
  assert (NoDup (filter (λ i, i ∉ positions) (seq 0 (length L)))) as Hnd'
    by apply NoDup_filter, NoDup_seq.
  assert (Forall (λ i, (i < length L)%nat)
            (filter (λ i, i ∉ positions) (seq 0 (length L)))) as Hlt.
  { apply Forall_forall. intros i [_ Hi]%list_elem_of_filter.
    apply elem_of_seq in Hi. lia. }
  revert Hnd' Hlt. generalize (filter (λ i, i ∉ positions) (seq 0 (length L))).
  intros l Hl Hlt. apply NoDup_fmap_2_strong; [|done].
  intros i i' Hi Hi' Heq. rewrite Forall_forall in Hlt.
  destruct (lookup_lt_is_Some_2 L i (Hlt i Hi)) as [m Hm].
  rewrite Hm in Heq. symmetry in Heq.
  eapply NoDup_lookup; [exact HL| |]; rewrite list_lookup_fmap.
  - by rewrite Hm.
  - by rewrite Heq.
Qed.

Lemma remaining_draws_cover_unsent_witness :
  let L := [itemA; itemB; itemC] in
  let t : gmap string (gset Z) := {["X" := {[1]}]} in
  let rs := [Sample 1 1; Sample 0 0] in
  let unsent := filter (λ i, i ∉ [1%nat]) (seq 0 (length L)) in
  (draws rs "X" L t).2 ≡ₚ (λ i, L !! i) <$> unsent ∧
  NoDup (draws rs "X" L t).2 ∧
  ∀ i : nat, (i < length L)%nat → Z.of_nat i ∈ sent_of "X" (draws rs "X" L t).1.
Proof.
  apply (remaining_draws_cover_unsent "X" [itemA; itemB; itemC]
           {["X" := {[1]}]} [1%nat] [Sample 1 1; Sample 0 0]).
  - apply (bool_decide_unpack _). vm_compute. reflexivity.
  - apply (bool_decide_unpack _). vm_compute. reflexivity.
  - apply (bool_decide_unpack _). vm_compute. reflexivity.
  - vm_compute. reflexivity.
  - reflexivity.
Defined.

(** X3.  The period is n + 1 draws.  From an empty set, n draws give a
    permutation of the list, the next draw returns the entry at the random
    position of the whole list and is not recorded, and the n draws after
    it give a permutation of the list again. *)
Theorem cycle_free_draw_cycle
    (c : string) (L : list mediaObj) (t : gmap string (gset Z))
    (rs1 : list sample) (r : sample) (rs2 : list sample) :
  L ≠ [] →
  NoDup (addr <$> L) →
  sent_of c t = ∅ →
  length rs1 = length L →
  length rs2 = length L →
  ∃ sel1 x sel2,
    (draws (rs1 ++ r :: rs2) c L t).2 = sel1 ++ Some x :: sel2 ∧
    sel1 ≡ₚ Some <$> L ∧
    L !! random_index r (length L) = Some x ∧
    sel2 ≡ₚ Some <$> L.
Proof.
  intros Hne HL Hsent Hlen1 Hlen2.
  destruct (draws_full c L rs1 t HL Hsent Hlen1) as [Hsel1 Hfull].
  rewrite draws_app. cbn [draws].
  destruct (draws rs1 c L t) as [t1 sel1]. cbn [fst snd] in *.
  rewrite (draw_exhausted c L r t1 Hfull).
  destruct (lookup_lt_is_Some_2 L (random_index r (length L))) as [x Hx].
  { apply random_index_lt. destruct L; [done|simpl; lia]. }
  destruct (draws_full c L rs2 (<[c:=∅]> t1) HL) as [Hsel2 _];
    [by rewrite sent_of_insert|done|].
  destruct (draws rs2 c L (<[c:=∅]> t1)) as [t2 sel2]. cbn [fst snd] in *.
  exists sel1, x, sel2. by rewrite Hx.
Qed.

Lemma cycle_free_draw_cycle_witness :
  ∃ sel1 x sel2,
    (draws ([Sample 1 1; Sample 0 0; Sample 3 0] ++ Sample 1 1 ::
            [Sample 0 0; Sample 0 0; Sample 0 0]) "X" [itemA; itemB; itemC] ∅).2
      = sel1 ++ Some x :: sel2 ∧
    sel1 ≡ₚ Some <$> [itemA; itemB; itemC] ∧
    [itemA; itemB; itemC] !! random_index (Sample 1 1) (length [itemA; itemB; itemC])
      = Some x ∧
    sel2 ≡ₚ Some <$> [itemA; itemB; itemC].
Proof.
  apply (cycle_free_draw_cycle "X" [itemA; itemB; itemC] ∅
           [Sample 1 1; Sample 0 0; Sample 3 0] (Sample 1 1)
           [Sample 0 0; Sample 0 0; Sample 0 0]).
  - discriminate.
  - apply (bool_decide_unpack _). vm_compute. reflexivity.
  - reflexivity.
  - reflexivity.
  - reflexivity.
Defined.

Section more_ticks.
Implicit Types (j : job) (s : state).

Lemma only_tracker_and_log_refl s : only_tracker_and_log s s.
Proof. by repeat split. Qed.

Lemma only_tracker_and_log_trans s1 s2 s3 :
  only_tracker_and_log s1 s2 → only_tracker_and_log s2 s3 →
  only_tracker_and_log s1 s3.
Proof.
  unfold only_tracker_and_log. intros H1 H2.
  destruct H1 as (?&?&?&?&?&?&?&?&?&?), H2 as (?&?&?&?&?&?&?&?&?&?).
  repeat split; congruence.
Qed.

Lemma job_callback_frame j r s : only_tracker_and_log s (job_callback j r s).
Proof.
  unfold job_callback. repeat case_match; by repeat split.
Qed.

Lemma job_callback_log j r s :
  mediaToSend (job_mediaType j) s ≠ [] →
  log (job_callback j r s) =
    log s ++ from_option (send_of (job_chat j)) [Thrown]
               (getNextUnsentMedia (job_chat j) (mediaToSend (job_mediaType j) s) r
                  (sentMediaTracking s)).2.
Proof.
  intros Hne. unfold job_callback, send_of.
  destruct (mediaToSend (job_mediaType j) s) as [|m0 L] eqn:HL; [done|].
  change (0 <? length (m0 :: L))%nat with true. cbv iota.
  destruct (getNextUnsentMedia _ _ _ _) as [t x].
  destruct x as [m|]; simpl; repeat case_decide; simpl; by rewrite ?app_nil_r.
Qed.

Lemma candidates_in_pools mediaType s m :
  m ∈ mediaToSend mediaType s → m ∈ videos s ++ images s.
Proof.
  unfold mediaToSend. rewrite elem_of_app.
  repeat case_decide; rewrite ?elem_of_app; try tauto. by intros ?%not_elem_of_nil.
Qed.

Lemma job_callback_sends j r s :
  j ∈ jobs s → cancelled j = false →
  ∃ evs, log (job_callback j r s) = log s ++ evs ∧ Forall (timer_send s) evs.
Proof.
  intros Hj Hlive.
  destruct (decide (mediaToSend (job_mediaType j) s = [])) as [Hnil|Hne].
  { exists []. split; [|done]. unfold job_callback. by rewrite Hnil, app_nil_r. }
  rewrite (job_callback_log j r s Hne).
  destruct (selection_member (job_chat j) _ r (sentMediaTracking s) Hne)
    as (m & -> & Hm).
  exists (send_of (job_chat j) m). split; [done|].
  apply Forall_forall. intros e He. exists j, m.
  repeat split; try done. by eapply candidates_in_pools.
Qed.

Lemma timer_send_back s s' e :
  only_tracker_and_log s s' → timer_send s' e → timer_send s e.
Proof.
  intros (Hv & Hi & _ & _ & _ & Hj & _) (j & m & ? & ? & ? & ?).
  exists j, m. by rewrite <- Hv, <- Hi, <- Hj.
Qed.

Lemma run_due_sends minute rnd js : ∀ h s,
  js ⊆ jobs s →
  only_tracker_and_log s (run_due minute rnd h js s) ∧
  ∃ evs, log (run_due minute rnd h js s) = log s ++ evs ∧
         Forall (timer_send s) evs.
Proof.
  induction js as [|j js IH]; intros h s Hsub; simpl.
  { split; [apply only_tracker_and_log_refl|]. exists []. by rewrite app_nil_r. }
  destruct (fires minute j) eqn:Hf.
  - assert (cancelled j = false) as Hlive.
    { destruct (cancelled j) eqn:Hc; [|done]. by rewrite fires_cancelled in Hf. }
    destruct (job_callback_sends j (rnd h) s) as (evs1 & Hlog1 & Hev1);
      [apply Hsub; by left|done|].
    pose proof (job_callback_frame j (rnd h) s) as Hfr.
    destruct (IH (S h) (job_callback j (rnd h) s)) as (Hfr2 & evs2 & Hlog2 & Hev2).
    { destruct Hfr as (_&_&_&_&_&->&_). intros x Hx. apply Hsub. by right. }
    split; [by eapply only_tracker_and_log_trans|].
    exists (evs1 ++ evs2). rewrite Hlog2, Hlog1, app_assoc. split; [done|].
    apply Forall_app. split; [done|].
    eapply Forall_impl; [exact Hev2|]. intros e. by apply timer_send_back.
  - apply IH. intros x Hx. apply Hsub. by right.
Qed.

Lemma ticks_log rs : ∀ j s,
  mediaToSend (job_mediaType j) s ≠ [] →
  log (ticks rs j s) =
    log s ++ ((draws rs (job_chat j) (mediaToSend (job_mediaType j) s)
                 (sentMediaTracking s)).2
              ≫= from_option (send_of (job_chat j)) [Thrown]).
Proof.
  unfold ticks. induction rs as [|r rs IH]; intros j s Hne.
  { simpl. by rewrite app_nil_r. }
  destruct (job_callback_draw j r s Hne) as (Ht & Hv & Hi).
  pose proof (mediaToSend_pools (job_mediaType j) s _ Hv Hi) as HL.
  cbn [foldl draws]. rewrite IH by (by rewrite HL).
  rewrite HL, Ht, (job_callback_log j r s Hne).
  destruct (getNextUnsentMedia _ _ r _) as [t1 x]. cbn [fst snd].
  destruct (draws rs _ _ t1) as [t2 xs]. cbn [fst snd].
  by rewrite bind_cons, app_assoc.
Qed.
End more_ticks.

(** X4.  One tick on a non-empty candidate list appends to the log exactly
    the send of one entry of that list to the job's chat (sendVideo for
    type 'video', sendPhoto for 'image', nothing for any other type), never
    an exception; it changes no pool, file, registry entry, timer or
    session, and no tracker set but the one of its own chat. *)
Theorem tick_sends_one_candidate (j : job) (r : sample) (s : state) :
  mediaToSend (job_mediaType j) s ≠ [] →
  let s' := job_callback j r s in
  (∃ m, m ∈ mediaToSend (job_mediaType j) s ∧
        log s' = log s ++ send_of (job_chat j) m) ∧
  only_tracker_and_log s s' ∧
  (∀ c', job_chat j ≠ c' → sentMediaTracking s' !! c' = sentMediaTracking s !! c').
Proof.
  intros Hne s'. split; [|split].
  - destruct (selection_member (job_chat j) _ r (sentMediaTracking s) Hne)
      as (m & Hsel & Hm).
    exists m. split; [done|]. subst s'.
    by rewrite (job_callback_log j r s Hne), Hsel.
  - apply job_callback_frame.
  - intros c' Hc'. subst s'.
    destruct (job_callback_draw j r s Hne) as (-> & _).
    by apply draw_other_chat.
Qed.

Lemma tick_sends_one_candidate_witness :
  let j := Job "chat1" 5 "videos" false in
  let r := Sample 1 1 in
  let s := mid_cycle in
  let s' := job_callback j r s in
  (∃ m, m ∈ mediaToSend (job_mediaType j) s ∧
        log s' = log s ++ send_of (job_chat j) m) ∧
  only_tracker_and_log s s' ∧
  (∀ c', job_chat j ≠ c' → sentMediaTracking s' !! c' = sentMediaTracking s !! c').
Proof.
  apply (tick_sends_one_candidate (Job "chat1" 5 "videos" false) (Sample 1 1)
           mid_cycle).
  discriminate.
Defined.

(** X5.  Whatever minutes pass, the timers only read: pools, registry,
    files, jobs and sessions stay as they are, and everything appended to
    the log is the send of a pool entry to the chat of a job that has not
    been cancelled.  In particular a tick never raises. *)
Theorem timers_only_send_pool_entries (ms : list (Z * (nat → sample))) : ∀ s,
  only_tracker_and_log s (elapse ms s) ∧
  ∃ evs, log (elapse ms s) = log s ++ evs ∧ Forall (timer_send s) evs.
Proof.
  unfold elapse. induction ms as [|[minute rnd] ms IH]; intros s; simpl.
  { split; [apply only_tracker_and_log_refl|]. exists []. by rewrite app_nil_r. }
  destruct (run_due_sends minute rnd (jobs s) 0%nat s) as (Hfr & evs1 & Hlog1 & Hev1);
    [done|].
  destruct (IH (elapse_minute minute rnd s)) as (Hfr2 & evs2 & Hlog2 & Hev2).
  split; [by eapply only_tracker_and_log_trans|].
  exists (evs1 ++ evs2). rewrite Hlog2. unfold elapse_minute at 1.
  rewrite Hlog1, app_assoc. split; [done|].
  apply Forall_app. split; [done|].
  eapply Forall_impl; [exact Hev2|]. intros e. by apply timer_send_back.
Qed.

(** X6.  Delivery over a cycle.  In every state the process can reach, if
    the chat's set is empty, then as many ticks of a job as its candidate
    list has entries send every entry of the list exactly once, in some
    order. *)
Theorem full_cycle_of_ticks
    (clock : string → string) (vj ij : list media)
    (sj : gmap string schedule_entry) (ops : list op)
    (j : job) (rs : list sample) :
  let s := run ops (startup clock vj ij sj) in
  let L := mediaToSend (job_mediaType j) s in
  sent_of (job_chat j) (sentMediaTracking s) = ∅ →
  length rs = length L →
  ∃ evs, log (ticks rs j s) = log s ++ evs ∧
         evs ≡ₚ L ≫= send_of (job_chat j).
Proof.
  intros s L Hsent Hlen.
  destruct (decide (L = [])) as [Hnil|Hne].
  { rewrite Hnil in *. destruct rs; [|done]. exists []. by rewrite app_nil_r. }
  exists ((draws rs (job_chat j) L (sentMediaTracking s)).2
            ≫= from_option (send_of (job_chat j)) [Thrown]).
  split; [by apply ticks_log|].
  destruct (draws_full (job_chat j) L rs (sentMediaTracking s)) as [Hsel _];
    [apply candidates_distinct|done|done|].
  by rewrite Hsel, list_fmap_bind.
Qed.

Lemma full_cycle_of_ticks_witness :
  let s := run [] (startup june_clock (fields <$> [itemA; itemB; itemC]) []
                     stored_chat1) in
  let j := Job "chat1" 1 "videos" false in
  let rs := [Sample 1 1; Sample 0 0; Sample 3 0] in
  let L := mediaToSend (job_mediaType j) s in
  ∃ evs, log (ticks rs j s) = log s ++ evs ∧
         evs ≡ₚ L ≫= send_of (job_chat j).
Proof.
  apply (full_cycle_of_ticks june_clock (fields <$> [itemA; itemB; itemC]) []
           stored_chat1 [] (Job "chat1" 1 "videos" false)
           [Sample 1 1; Sample 0 0; Sample 3 0]).
  - reflexivity.
  - reflexivity.
Defined.

Example ticks_over_abc :
  let s := startup june_clock (fields <$> [itemA; itemB; itemC]) [] stored_chat1 in
  dispatches_to "chat1"
    (ticks [Sample 1 1; Sample 0 0; Sample 3 0] (Job "chat1" 1 "mix" false) s)
  = [SendVideo "chat1" "B" "second"; SendVideo "chat1" "A" "first";
     SendPhoto "chat1" "C" "third"].
Proof. vm_compute. reflexivity. Qed.

Section sync.
Implicit Types (s : state) (c : string) (j : job).

Lemma filter_alter_outside {A} (P : A → Prop) `{!∀ x, Decision (P x)}
    (f : A → A) (l : list A) : ∀ h,
  (∀ x, l !! h = Some x → ¬ P x ∧ ¬ P (f x)) →
  filter P (alter f h l) = filter P l.
Proof.
  induction l as [|y l IH]; intros h Hout; [done|].
  destruct h as [|h].
  - change (alter f 0%nat (y :: l)) with (f y :: l).
    destruct (Hout y eq_refl) as [Hy Hfy].
    by rewrite !filter_cons_False.
  - change (alter f (S h) (y :: l)) with (y :: alter f h l).
    rewrite !filter_cons. rewrite (IH h); [done|]. intros x Hx. by apply Hout.
Qed.

Lemma cancel_job_other_chat c' h s :
  (∀ j, jobs s !! h = Some j → job_chat j ≠ c') →
  active_jobs c' (cancel_job h s) = active_jobs c' s.
Proof.
  intros Hother. unfold active_jobs, cancel_job. simpl.
  apply filter_alter_outside. intros j Hj. specialize (Hother j Hj).
  split; simpl; intros [? _]; done.
Qed.

Lemma cancel_held_job_other_chat c c' h s :
  handles_own s → schedules s !! c = Some h → c ≠ c' →
  active_jobs c' (cancel_job h s) = active_jobs c' s.
Proof.
  intros Hown Hh Hne. apply cancel_job_other_chat. intros j Hj.
  destruct (Hown c h Hh) as (j' & Hj' & Hc & _). congruence.
Qed.

Lemma createScheduledJob_other_chat c c' i m now s :
  handles_own s → c ≠ c' →
  active_jobs c' (createScheduledJob c i m now s) = active_jobs c' s ∧
  scheduleData (createScheduledJob c i m now s) !! c' = scheduleData s !! c'.
Proof.
  intros Hown Hne. split.
  - unfold createScheduledJob, active_jobs. simpl.
    rewrite filter_app, filter_cons_False, filter_nil, app_nil_r
      by (simpl; intros [? _]; done).
    destruct (schedules s !! c) as [h|] eqn:Hh; [|done].
    by apply (cancel_held_job_other_chat c).
  - by rewrite createScheduledJob_scheduleData, lookup_insert_ne.
Qed.

Lemma createScheduledJob_handles c i m now s :
  handles_own s → handles_own (createScheduledJob c i m now s).
Proof.
  intros Hown c' h'. unfold createScheduledJob. simpl.
  set (s0 := match schedules s !! c with Some h => cancel_job h s | None => s end).
  assert (schedules s0 = schedules s) as -> by (subst s0; by destruct (schedules s !! c)).
  destruct (decide (c = c')) as [<-|Hne].
  - rewrite lookup_insert_eq. intros [= <-].
    exists (Job c i m false). by rewrite lookup_app_r, Nat.sub_diag by lia.
  - rewrite lookup_insert_ne by done. intros Hh'.
    destruct (Hown c' h' Hh') as (j & Hj & Hc & Hlive).
    exists j. split; [|done].
    assert (jobs s0 !! h' = Some j) as Hj0.
    { subst s0. destruct (schedules s !! c) as [h|] eqn:Hh; [|done].
      simpl. rewrite list_lookup_alter_ne; [done|]. intros ->.
      destruct (Hown c h' Hh) as (j' & Hj' & Hc' & _). congruence. }
    rewrite lookup_app_l; [done|]. by eapply lookup_lt_Some.
Qed.

Lemma createScheduledJob_sync c i m now s :
  in_sync s → in_sync (createScheduledJob c i m now s).
Proof.
  intros (Hwf & Hown & Hreg). split; [by apply createScheduledJob_wf|].
  split; [by apply createScheduledJob_handles|].
  intros c'. destruct (decide (c = c')) as [<-|Hne].
  - rewrite createScheduledJob_active by done.
    by rewrite createScheduledJob_scheduleData, lookup_insert_eq.
  - destruct (createScheduledJob_other_chat c c' i m now s Hown Hne) as [-> ->].
    apply Hreg.
Qed.

Lemma stop_other_chat ctx c' s :
  handles_own s → chat_id ctx ≠ c' →
  active_jobs c' (stop ctx s) = active_jobs c' s ∧
  scheduleData (stop ctx s) !! c' = scheduleData s !! c' ∧
  schedules (stop ctx s) !! c' = schedules s !! c' ∧
  sentMediaTracking (stop ctx s) !! c' = sentMediaTracking s !! c'.
Proof.
  intros Hown Hne. unfold stop.
  destruct (decide (chat_type ctx = "private")); [done|].
  destruct (schedules s !! chat_id ctx) as [h|] eqn:Hh.
  - simpl. rewrite !lookup_delete_ne by done. split; [|done].
    by apply (cancel_held_job_other_chat (chat_id ctx)).
  - destruct (scheduleData s !! chat_id ctx); [|done].
    simpl. by rewrite !lookup_delete_ne.
Qed.

Lemma stop_sync ctx s : in_sync s → in_sync (stop ctx s).
Proof.
  intros (Hwf & Hown & Hreg). split; [by apply stop_wf|].
  destruct (decide (chat_type ctx = "private")) as [Hp|Hp].
  { unfold stop. by rewrite decide_True. }
  assert (idle (chat_id ctx) (stop ctx s) ∧
          scheduleData (stop ctx s) !! chat_id ctx = None) as [Hidle Hgone].
  { unfold stop. rewrite decide_False by done.
    destruct (schedules s !! chat_id ctx) as [h|] eqn:Hh.
    - split; [|simpl; apply lookup_delete_eq].
      intros j (h' & Hj)%list_elem_of_lookup_1 Hc. simpl in Hj.
      destruct (cancelled j) eqn:Hact; [done|].
      apply (cancel_job_lookup h s) in Hj as (j0 & Hj0 & Hchat & _ & _ & Hlive).
      destruct (Hlive Hact) as [Hne Hact0].
      pose proof (Hwf h' j0 Hj0 Hact0) as Hs. rewrite <- Hchat, Hc, Hh in Hs.
      congruence.
    - assert (idle (chat_id ctx) s) as Hidle.
      { intros j (h' & Hj)%list_elem_of_lookup_1 Hc.
        destruct (cancelled j) eqn:Hact; [done|].
        pose proof (Hwf h' j Hj Hact) as Hs. rewrite Hc, Hh in Hs. done. }
      destruct (scheduleData s !! chat_id ctx) eqn:He.
      + split; [done|]. simpl. apply lookup_delete_eq.
      + by split. }
  split.
  - intros c' h'. destruct (decide (chat_id ctx = c')) as [<-|Hne].
    + unfold stop. rewrite decide_False by done.
      destruct (schedules s !! chat_id ctx) as [h|] eqn:Hh.
      * simpl. by rewrite lookup_delete_eq.
      * destruct (scheduleData s !! chat_id ctx); simpl; by rewrite Hh.
    + destruct (stop_other_chat ctx c' s Hown Hne) as (_ & _ & -> & _).
      intros Hh'. destruct (Hown c' h' Hh') as (j & Hj & Hc & Hlive).
      exists j. split; [|done]. unfold stop. rewrite decide_False by done.
      destruct (schedules s !! chat_id ctx) as [h|] eqn:Hh.
      * simpl. rewrite list_lookup_alter_ne; [done|]. intros ->.
        destruct (Hown _ _ Hh) as (j' & Hj' & Hc' & _). congruence.
      * by destruct (scheduleData s !! chat_id ctx).
  - intros c'. destruct (decide (chat_id ctx = c')) as [<-|Hne].
    + rewrite Hgone. simpl. by apply idle_active_jobs.
    + destruct (stop_other_chat ctx c' s Hown Hne) as (-> & -> & _). apply Hreg.
Qed.

Lemma in_sync_frame s s' :
  jobs s' = jobs s → schedules s' = schedules s →
  scheduleData s' = scheduleData s → in_sync s → in_sync s'.
Proof.
  unfold in_sync, wf_timers, handles_own, registry_matches, active_jobs.
  by intros -> -> ->.
Qed.

Lemma run_due_scheduleData minute rnd js : ∀ h s,
  scheduleData (run_due minute rnd h js s) = scheduleData s.
Proof. intros h s. by destruct (run_due_untouched minute rnd js h s) as (_&_&_&_&->&_). Qed.

Lemma step_sync o s : in_sync s → in_sync (step o s).
Proof.
  intros Hs. destruct o; simpl; try (by apply stop_sync).
  1-8: (eapply in_sync_frame; [| | |exact Hs];
        unfold on_video, on_photo, deletevideo, deleteimage, deletevideos,
          deleteimages, schedule_command, on_action, new_object;
        crunch_handler).
  - unfold on_text. destruct (sessions s !! session_key ctx); [|done].
    destruct (numeric && js_lt (Some 0) parsed); [|done].
    eapply in_sync_frame; [| | |by apply createScheduledJob_sync]; done.
  - eapply in_sync_frame; [| | |exact Hs]; unfold elapse_minute.
    + apply run_due_jobs.
    + apply run_due_jobs.
    + apply run_due_scheduleData.
Qed.

Lemma rearm_handles clock ks : ∀ s, handles_own s → handles_own (rearm clock ks s).
Proof.
  unfold rearm. induction ks as [|k ks IH]; intros s Hs; simpl; [done|].
  apply IH. destruct (scheduleData s !! k); [by apply createScheduledJob_handles|done].
Qed.

Lemma startup_sync clock vj ij sj : in_sync (startup clock vj ij sj).
Proof.
  split; [apply startup_wf|]. split.
  - apply rearm_handles. intros c h Hh. done.
  - destruct (rearm_load clock vj ij sj (map_to_list sj).*1)
      as (Hdata & _ & Hact & _).
    { apply NoDup_fst_map_to_list. }
    { intros k ([k' e] & -> & Hin)%list_elem_of_fmap.
      apply elem_of_map_to_list in Hin. by exists e. }
    intros c. unfold startup. rewrite Hact, Hdata.
    case_decide.
    + by destruct (sj !! c).
    + destruct (sj !! c) as [e|] eqn:He; [|done].
      exfalso. apply H, list_elem_of_fmap. exists (c, e).
      split; [done|]. by apply elem_of_map_to_list.
Qed.

Lemma reachable_sync clock vj ij sj ops :
  in_sync (run ops (startup clock vj ij sj)).
Proof.
  generalize (startup_sync clock vj ij sj).
  generalize (startup clock vj ij sj). unfold run.
  induction ops as [|o ops IH]; intros s Hs; simpl; [done|].
  by apply IH, step_sync.
Qed.
End sync.

Section restart.
Implicit Types (s : state) (c : string).

Lemma rearm_leaves_pools clock ks : ∀ s,
  videos (rearm clock ks s) = videos s ∧
  images (rearm clock ks s) = images s ∧
  sentMediaTracking (rearm clock ks s) = sentMediaTracking s.
Proof.
  unfold rearm. induction ks as [|k ks IH]; intros s; simpl; [done|].
  destruct (IH (match scheduleData s !! k with
                | Some e => createScheduledJob k (interval e) (mediaType e) (clock k) s
                | None => emit Thrown s
                end)) as (-> & -> & ->).
  unfold createScheduledJob. by repeat case_match.
Qed.


End restart.

(** X7.  Timers and registry agree.  In every state the process can reach,
    the live jobs of a chat are exactly what its registry entry says: one
    job with the entry's interval and selector, or none without an entry.
    So no chat ever has two live jobs, and a chat has a timer handle
    exactly when it has a registry entry: the branch of /stop for a lost
    handle is never taken. *)
Theorem timers_match_registry
    (clock : string → string) (vj ij : list media)
    (sj : gmap string schedule_entry) (ops : list op) (c : string) :
  let s := run ops (startup clock vj ij sj) in
  active_jobs c s = from_option (λ e, [job_of c e]) [] (scheduleData s !! c) ∧
  (length (active_jobs c s) ≤ 1)%nat ∧
  (schedules s !! c = None ↔ scheduleData s !! c = None).
Proof.
  intros s. destruct (reachable_sync clock vj ij sj ops) as (Hwf & Hown & Hreg).
  fold s in Hwf, Hown, Hreg.
  split; [apply Hreg|]. split.
  - rewrite Hreg. destruct (scheduleData s !! c); simpl; lia.
  - split.
    + intros Hnone. destruct (scheduleData s !! c) as [e|] eqn:He; [|done].
      assert (job_of c e ∈ active_jobs c s) as Hin by (rewrite Hreg, He; by left).
      apply list_elem_of_filter in Hin as [[_ Hlive] (h & Hj)%list_elem_of_lookup_1].
      pose proof (Hwf h _ Hj Hlive) as Hs. simpl in Hs. congruence.
    + intros Hnone. destruct (schedules s !! c) as [h|] eqn:Hh; [|done].
      destruct (Hown c h Hh) as (j & Hj & Hc & Hlive).
      assert (j ∈ active_jobs c s) as Hin.
      { apply list_elem_of_filter. split; [done|]. by eapply list_elem_of_lookup_2. }
      rewrite Hreg, Hnone in Hin. by apply not_elem_of_nil in Hin.
Qed.


(** X9.  Scheduling (the interval message) or stopping in one chat leaves
    the live jobs, the registry entry and the tracker set of every other
    chat as they were, in every reachable state. *)
Theorem other_chats_untouched
    (clock : string → string) (vj ij : list media)
    (sj : gmap string schedule_entry) (ops : list op)
    (ctx : context) (numeric : bool) (parsed : option Z) (now : string)
    (c' : string) :
  chat_id ctx ≠ c' →
  let s := run ops (startup clock vj ij sj) in
  let scheduled := on_text ctx numeric parsed now s in
  let stopped := stop ctx s in
  (active_jobs c' scheduled = active_jobs c' s ∧
   scheduleData scheduled !! c' = scheduleData s !! c' ∧
   sentMediaTracking scheduled !! c' = sentMediaTracking s !! c') ∧
  (active_jobs c' stopped = active_jobs c' s ∧
   scheduleData stopped !! c' = scheduleData s !! c' ∧
   sentMediaTracking stopped !! c' = sentMediaTracking s !! c').
Proof.
  intros Hne s scheduled stopped.
  destruct (reachable_sync clock vj ij sj ops) as (_ & Hown & _). fold s in Hown.
  split.
  - subst scheduled. unfold on_text.
    destruct (sessions s !! session_key ctx) as [selected|]; [|done].
    destruct (numeric && js_lt (Some 0) parsed); [|done].
    destruct (createScheduledJob_other_chat (chat_id ctx) c' (to_integer parsed)
                selected now s Hown Hne) as [Hact Hdata].
    split; [exact Hact|]. split; [exact Hdata|].
    unfold createScheduledJob. simpl. by destruct (schedules s !! chat_id ctx).
  - destruct (stop_other_chat ctx c' s Hown Hne) as (? & ? & _ & ?). done.
Qed.

Lemma other_chats_untouched_witness :
  let s := run [OnAction group_chat1 "mix"]
             (startup june_clock one_video []
                {["chat1" := Entry 1 "videos" (jan "01");
                  "chat2" := Entry 2 "mix" (jan "02")]}) in
  let scheduled := on_text group_chat1 true (Some 5) (jan "07") s in
  let stopped := stop group_chat1 s in
  (active_jobs "chat2" scheduled = active_jobs "chat2" s ∧
   scheduleData scheduled !! "chat2" = scheduleData s !! "chat2" ∧
   sentMediaTracking scheduled !! "chat2" = sentMediaTracking s !! "chat2") ∧
  (active_jobs "chat2" stopped = active_jobs "chat2" s ∧
   scheduleData stopped !! "chat2" = scheduleData s !! "chat2" ∧
   sentMediaTracking stopped !! "chat2" = sentMediaTracking s !! "chat2").
Proof.
  apply (other_chats_untouched june_clock one_video []
           {["chat1" := Entry 1 "videos" (jan "01");
             "chat2" := Entry 2 "mix" (jan "02")]} [OnAction group_chat1 "mix"]
           group_chat1 true (Some 5) (jan "07") "chat2").
  discriminate.
Defined.

(** X10.  After /stop in a group the chat has neither a handle nor a
    registry entry, so a second /stop only answers that nothing is
    scheduled. *)
Theorem stop_twice (ctx : context) (s : state) :
  chat_type ctx ≠ "private" →
  schedules (stop ctx s) !! chat_id ctx = None ∧
  scheduleData (stop ctx s) !! chat_id ctx = None ∧
  stop ctx (stop ctx s) = emit (Reply NothingScheduled) (stop ctx s).
Proof.
  intros Hp.
  assert (schedules (stop ctx s) !! chat_id ctx = None ∧
          scheduleData (stop ctx s) !! chat_id ctx = None) as [Hh He].
  { unfold stop. rewrite decide_False by done.
    destruct (schedules s !! chat_id ctx) as [h|] eqn:Hh.
    - simpl. by rewrite !lookup_delete_eq.
    - destruct (scheduleData s !! chat_id ctx) eqn:He; simpl.
      + by rewrite Hh, lookup_delete_eq.
      + by rewrite Hh, He. }
  split; [done|]. split; [done|]. by apply stop_nothing.
Qed.

Lemma stop_twice_witness :
  schedules (stop group_chat1 scheduled_chat1) !! chat_id group_chat1 = None ∧
  scheduleData (stop group_chat1 scheduled_chat1) !! chat_id group_chat1 = None ∧
  stop group_chat1 (stop group_chat1 scheduled_chat1)
    = emit (Reply NothingScheduled) (stop group_chat1 scheduled_chat1).
Proof.
  apply (stop_twice group_chat1 scheduled_chat1). discriminate.
Defined.

Section dialogue.
Implicit Types (s : state) (c : string) (j : job).

Lemma valid_schedules_frame s s' :
  sessions s' = sessions s → scheduleData s' = scheduleData s → jobs s' = jobs s →
  valid_schedules s → valid_schedules s'.
Proof. unfold valid_schedules. by intros -> -> ->. Qed.

Lemma cancel_job_valid h s j :
  (∀ j, j ∈ jobs s → 0 < job_interval j ∧ job_mediaType j ∈ selectors) →
  j ∈ jobs (cancel_job h s) → 0 < job_interval j ∧ job_mediaType j ∈ selectors.
Proof.
  intros Hjobs (h' & Hj)%list_elem_of_lookup_1.
  apply cancel_job_lookup in Hj as (j0 & Hj0 & _ & -> & -> & _).
  apply Hjobs. by eapply list_elem_of_lookup_2.
Qed.

Lemma createScheduledJob_valid c i m now s :
  0 < i → m ∈ selectors →
  valid_schedules s → valid_schedules (createScheduledJob c i m now s).
Proof.
  intros Hi Hm (Hsess & Hdata & Hjobs). split; [|split].
  - unfold createScheduledJob. simpl. by destruct (schedules s !! c).
  - intros c' e. rewrite createScheduledJob_scheduleData.
    destruct (decide (c = c')) as [<-|Hne].
    + rewrite lookup_insert_eq. by intros [= <-].
    + rewrite lookup_insert_ne by done. apply Hdata.
  - intros j. unfold createScheduledJob. simpl.
    intros [Hin|Hnew%list_elem_of_singleton]%elem_of_app; [|by subst j].
    destruct (schedules s !! c) as [h|]; [|by apply Hjobs].
    by eapply cancel_job_valid.
Qed.

Lemma positive_number parsed :
  js_lt (Some 0) parsed = true → 0 < to_integer parsed.
Proof. destruct parsed as [n|]; simpl; [lia|done]. Qed.

Lemma step_valid o s : valid_schedules s → valid_schedules (step o s).
Proof.
  intros Hs. destruct o; simpl.
  1-7: (eapply valid_schedules_frame; [| | |exact Hs];
        unfold on_video, on_photo, deletevideo, deleteimage, deletevideos,
          deleteimages, schedule_command, new_object;
        crunch_handler).
  - unfold on_action. case_decide; [|done].
    destruct Hs as (Hsess & Hdata & Hjobs). split; [|done].
    intros k v. simpl. destruct (decide (session_key ctx = k)) as [<-|Hne].
    + rewrite lookup_insert_eq. by intros [= <-].
    + rewrite lookup_insert_ne by done. apply Hsess.
  - unfold on_text. destruct (sessions s !! session_key ctx) as [selected|] eqn:Hsel;
      [|done].
    destruct (numeric && js_lt (Some 0) parsed) eqn:Hok; [|done].
    apply andb_true_iff in Hok as [_ Hpos].
    destruct (createScheduledJob_valid (chat_id ctx) (to_integer parsed) selected
                now s) as (Hsess & Hdata & Hjobs);
      [by apply positive_number|by apply (proj1 Hs _ _ Hsel)|done|].
    split; [|done]. intros k v. simpl. intros [_ Hk]%lookup_delete_Some.
    by apply Hsess in Hk.
  - destruct Hs as (Hsess & Hdata & Hjobs). unfold stop.
    destruct (decide (chat_type ctx = "private")); [done|].
    destruct (schedules s !! chat_id ctx) as [h|].
    + split; [done|]. split; simpl.
      * intros c e [_ He]%lookup_delete_Some. by apply Hdata in He.
      * intros j. by apply cancel_job_valid.
    + destruct (scheduleData s !! chat_id ctx); [|done].
      split; [done|]. split; [|done]. simpl.
      intros c e [_ He]%lookup_delete_Some. by apply Hdata in He.
  - eapply valid_schedules_frame; [| | |exact Hs]; unfold elapse_minute.
    + by destruct (run_due_sends minute rnd (jobs s) 0%nat s) as [(_&_&_&_&->&_) _].
    + apply run_due_scheduleData.
    + apply run_due_jobs.
Qed.
End dialogue.

(** X11.  If the registry file read at start holds only positive intervals
    and the selectors videos, images or mix, then so does every reachable
    state: in its sessions, its registry and its jobs.  The interval
    message never creates a schedule from zero, a negative number or
    text that is not a number. *)
Theorem only_valid_schedules
    (clock : string → string) (vj ij : list media)
    (sj : gmap string schedule_entry) (ops : list op) :
  (∀ c e, sj !! c = Some e → 0 < interval e ∧ mediaType e ∈ selectors) →
  valid_schedules (run ops (startup clock vj ij sj)).
Proof.
  intros Hfile.
  assert (valid_schedules (startup clock vj ij sj)) as Hstart.
  { unfold startup.
    assert (valid_schedules (load vj ij sj)) as Hload.
    { split; [|split]; simpl; [|done|].
      - intros k v Hk. done.
      - intros j Hj. by apply not_elem_of_nil in Hj. }
    revert Hload. generalize (load vj ij sj). unfold rearm.
    induction ((map_to_list sj).*1) as [|k ks IH]; intros s Hs; simpl; [done|].
    apply IH. destruct (scheduleData s !! k) as [e|] eqn:He; [|done].
    destruct (proj1 (proj2 Hs) k e He). by apply createScheduledJob_valid. }
  revert Hstart. generalize (startup clock vj ij sj). unfold run.
  induction ops as [|o ops IH]; intros s Hs; simpl; [done|].
  by apply IH, step_valid.
Qed.

Lemma only_valid_schedules_witness :
  valid_schedules
    (run [OnAction group_chat1 "mix"; OnText group_chat1 true (Some 5) (jan "07");
          OnText group_chat1 true (Some (-3)) (jan "08")]
       (startup june_clock one_video [] stored_chat1)).
Proof.
  apply (only_valid_schedules june_clock one_video [] stored_chat1).
  intros c e He. unfold stored_chat1 in He.
  apply lookup_singleton_Some in He as [_ <-]. simpl.
  split; [lia|]. unfold selectors. apply (bool_decide_unpack _). vm_compute. reflexivity.
Defined.

(** X12.  The dialogue.  In a reachable state, choosing a selector and then
    sending a positive number n leaves the chat with exactly one live job
    (n, selector), the registry entry written to the file, the session
    cleared and the reply Scheduled; any further text in that session is
    then ignored. *)
Theorem dialogue_schedules
    (clock : string → string) (vj ij : list media)
    (sj : gmap string schedule_entry) (ops : list op)
    (ctx : context) (data : string) (n : Z) (now : string) :
  data ∈ selectors →
  0 < n →
  let s := run ops (startup clock vj ij sj) in
  let s1 := on_action ctx data s in
  let s2 := on_text ctx true (Some n) now s1 in
  active_jobs (chat_id ctx) s2 = [Job (chat_id ctx) n data false] ∧
  scheduleData s2 !! chat_id ctx = Some (Entry n data now) ∧
  schedulesFile s2 = scheduleData s2 ∧
  sessions s2 !! session_key ctx = None ∧
  last (log s2) = Some (Reply (Scheduled data n)) ∧
  (∀ numeric parsed now', on_text ctx numeric parsed now' s2 = s2).
Proof.
  intros Hdata Hn s s1 s2.
  assert (wf_timers s1) as Hwf.
  { subst s1. unfold on_action. rewrite decide_True by done.
    eapply wf_timers_frame; [| |apply reachable_wf]; done. }
  assert (sessions s1 !! session_key ctx = Some data) as Hsel.
  { subst s1. unfold on_action. rewrite decide_True by done. simpl.
    apply lookup_insert_eq. }
  assert (s2 = emit (Reply (Scheduled data n))
                 (set_sessions (delete (session_key ctx)
                                  (sessions (createScheduledJob (chat_id ctx) n data now s1)))
                    (createScheduledJob (chat_id ctx) n data now s1))) as Hs2.
  { subst s2. unfold on_text. rewrite Hsel. simpl.
    destruct (0 <? n) eqn:Hpos; [done|lia]. }
  assert (sessions s2 !! session_key ctx = None) as Hcleared.
  { rewrite Hs2. simpl. apply lookup_delete_eq. }
  split; [|split; [|split; [|split; [done|split]]]].
  - rewrite Hs2. by apply (createScheduledJob_active (chat_id ctx) n data now s1).
  - rewrite Hs2. unfold emit, set_sessions. cbn [scheduleData].
    by rewrite createScheduledJob_scheduleData, lookup_insert_eq.
  - rewrite Hs2. unfold emit, set_sessions. cbn [scheduleData schedulesFile].
    apply createScheduledJob_schedulesFile.
  - rewrite Hs2. unfold emit. cbn [log]. apply last_snoc.
  - intros numeric parsed now'. unfold on_text. by rewrite Hcleared.
Qed.

Lemma dialogue_schedules_witness :
  let s := run [] (startup june_clock one_video [] stored_chat1) in
  let s1 := on_action group_chat1 "mix" s in
  let s2 := on_text group_chat1 true (Some 5) (jan "07") s1 in
  active_jobs (chat_id group_chat1) s2 = [Job (chat_id group_chat1) 5 "mix" false] ∧
  scheduleData s2 !! chat_id group_chat1 = Some (Entry 5 "mix" (jan "07")) ∧
  schedulesFile s2 = scheduleData s2 ∧
  sessions s2 !! session_key group_chat1 = None ∧
  last (log s2) = Some (Reply (Scheduled "mix" 5)) ∧
  (∀ numeric parsed now', on_text group_chat1 numeric parsed now' s2 = s2).
Proof.
  apply (dialogue_schedules june_clock one_video [] stored_chat1 []
           group_chat1 "mix" 5 (jan "07")).
  - unfold selectors. apply (bool_decide_unpack _). vm_compute. reflexivity.
  - lia.
Defined.

Section pool_ops.
Implicit Types (s : state).

Lemma delete_one_in_range {A} (i : Z) (pool : list A) :
  0 ≤ i < Z.of_nat (length pool) →
  delete_one true (Some i) pool = inr (delete (Z.to_nat i) pool).
Proof.
  intros Hi. unfold delete_one. cbn [negb js_lt js_le].
  change (to_integer (Some i)) with i.
  destruct (i <? 0) eqn:Hneg; [lia|].
  destruct (Z.of_nat (length pool) <=? i) eqn:Hge; [lia|]. cbn [orb].
  by rewrite splice1_in_range.
Qed.

Lemma delete_one_out_of_range {A} (i : Z) (pool : list A) :
  i < 0 ∨ Z.of_nat (length pool) ≤ i →
  delete_one true (Some i) pool = inl InvalidMediaIndex.
Proof.
  intros Hi. unfold delete_one. simpl.
  destruct (i <? 0) eqn:Hneg; [done|].
  destruct (Z.of_nat (length pool) <=? i) eqn:Hge; [done|lia].
Qed.

Lemma keep_outside_range {A} (lo hi : nat) (pool : list A) : ∀ k : nat,
  (lo ≤ hi)%nat →
  filter_index (λ i, bool_decide (Z.of_nat i ∉
      seqZ (Z.of_nat lo) (Z.of_nat hi - Z.of_nat lo))) k pool
  = take (lo - k) pool ++ drop (hi - k) pool.
Proof.
  induction pool as [|x pool IH]; intros k Hle.
  { by rewrite take_nil, drop_nil. }
  cbn [filter_index]. rewrite IH by done.
  destruct (decide (k < lo)%nat) as [Hlow|Hlow].
  - rewrite bool_decide_eq_true_2 by (rewrite elem_of_seqZ; lia).
    replace (lo - k)%nat with (S (lo - S k)) by lia.
    replace (hi - k)%nat with (S (hi - S k)) by lia. done.
  - replace (lo - k)%nat with 0%nat by lia.
    replace (lo - S k)%nat with 0%nat by lia. simpl.
    destruct (decide (k < hi)%nat) as [Hin|Hout].
    + rewrite bool_decide_eq_false_2 by (rewrite elem_of_seqZ; lia).
      by replace (hi - k)%nat with (S (hi - S k)) by lia.
    + rewrite bool_decide_eq_true_2 by (rewrite elem_of_seqZ; lia).
      replace (hi - k)%nat with 0%nat by lia.
      by replace (hi - S k)%nat with 0%nat by lia.
Qed.
Lemma length_omap_le {A B} (f : A → option B) (l : list A) :
  (length (omap f l) ≤ length l)%nat.
Proof.
  induction l as [|x l IH]; [done|].
  change (omap f (x :: l))
    with (match f x with Some y => y :: omap f l | None => omap f l end).
  destruct (f x); simpl; lia.
Qed.

Lemma length_omap_lt {A B} (f : A → option B) (l : list A) x :
  x ∈ l → f x = None → (length (omap f l) < length l)%nat.
Proof.
  intros Hx Hfx. induction l as [|y l IH]; [by apply not_elem_of_nil in Hx|].
  change (omap f (y :: l))
    with (match f y with Some z => z :: omap f l | None => omap f l end).
  apply elem_of_cons in Hx as [<-|Hx].
  - rewrite Hfx. pose proof (length_omap_le f l). simpl. lia.
  - specialize (IH Hx). destruct (f y); simpl; lia.
Qed.
End pool_ops.

(** X13.  Single deletion.  For the admin, /deletevideo with a well-formed
    index i inside [0, length) removes exactly the entry at i: earlier
    entries keep their position, later ones move down by one, the image
    pool is untouched and the file is written once.  An index outside is
    refused without any change, as is a malformed command. *)
Theorem removeAt_removes_exactly (ctx : context) (s : state) (i : Z) :
  isAdmin ctx = true →
  let len := Z.of_nat (length (videos s)) in
  (0 ≤ i < len →
     let s' := deletevideo ctx true (Some i) s in
     videos s' = delete (Z.to_nat i) (videos s) ∧
     (∀ k : nat, (k < Z.to_nat i)%nat → videos s' !! k = videos s !! k) ∧
     (∀ k : nat, (Z.to_nat i ≤ k)%nat → videos s' !! k = videos s !! S k) ∧
     length (videos s') = (length (videos s) - 1)%nat ∧
     images s' = images s ∧
     videosFile s' = fields <$> videos s' ∧
     log s' = log s ++ [WriteVideos (fields <$> videos s'); Reply MediaDeleted]) ∧
  (i < 0 ∨ len ≤ i →
     deletevideo ctx true (Some i) s = emit (Reply InvalidMediaIndex) s) ∧
  (deletevideo ctx false (Some i) s = emit (Reply InvalidDeleteCommand) s).
Proof.
  intros Hadmin len. split; [|split].
  - intros Hi s'. subst s'. unfold deletevideo.
    rewrite Hadmin, delete_one_in_range by done. simpl.
    split; [done|]. split; [|split; [|split; [|split; [done|split; [done|]]]]].
    + intros k Hk. by apply list_lookup_delete_lt.
    + intros k Hk. by apply list_lookup_delete_ge.
    + apply length_delete, lookup_lt_is_Some_2. lia.
    + by rewrite <- app_assoc.
  - intros Hi. unfold deletevideo.
    by rewrite Hadmin, delete_one_out_of_range.
  - unfold deletevideo. by rewrite Hadmin.
Qed.

Lemma removeAt_removes_exactly_witness :
  let ctx := admin_ctx in
  let s := five_videos in
  let i := 3 in
  let len := Z.of_nat (length (videos s)) in
  (0 ≤ i < len →
     let s' := deletevideo ctx true (Some i) s in
     videos s' = delete (Z.to_nat i) (videos s) ∧
     (∀ k : nat, (k < Z.to_nat i)%nat → videos s' !! k = videos s !! k) ∧
     (∀ k : nat, (Z.to_nat i ≤ k)%nat → videos s' !! k = videos s !! S k) ∧
     length (videos s') = (length (videos s) - 1)%nat ∧
     images s' = images s ∧
     videosFile s' = fields <$> videos s' ∧
     log s' = log s ++ [WriteVideos (fields <$> videos s'); Reply MediaDeleted]) ∧
  (i < 0 ∨ len ≤ i →
     deletevideo ctx true (Some i) s = emit (Reply InvalidMediaIndex) s) ∧
  (deletevideo ctx false (Some i) s = emit (Reply InvalidDeleteCommand) s).
Proof.
  apply (removeAt_removes_exactly admin_ctx five_videos 3). reflexivity.
Defined.

(** X14.  An index that passes [isNaN] but that [parseInt] cannot read
    (NaN) gets through the range check of the single-delete commands,
    whose comparisons are all false, and [splice(NaN, 1)] removes the first
    entry with a success reply; the bulk commands refuse the same input. *)
Theorem removeAt_accepts_NaN (ctx : context) (s : state) :
  isAdmin ctx = true →
  deletevideo ctx true None s =
    emit (Reply MediaDeleted) (saveVideos (set_videos (drop 1 (videos s)) s)) ∧
  deleteimage ctx true None s =
    emit (Reply MediaDeleted) (saveImages (set_images (drop 1 (images s)) s)) ∧
  (videos s ≠ [] →
     deletevideos ctx (NumberText None) s = emit (Reply InvalidIndex) s ∧
     ∀ items, None ∈ items →
       deletevideos ctx (ListText items) s = emit (Reply InvalidIndices) s).
Proof.
  intros Hadmin.
  assert (∀ A (pool : list A), delete_one true None pool = inr (drop 1 pool)) as Hnan.
  { intros A pool. unfold delete_one, splice1. simpl.
    destruct (Z.of_nat (length pool)) eqn:Hlen; simpl; try lia;
      by destruct pool. }
  split; [|split].
  - unfold deletevideo. by rewrite Hadmin, Hnan.
  - unfold deleteimage. by rewrite Hadmin, Hnan.
  - intros Hne. unfold deletevideos, delete_many. rewrite Hadmin.
    destruct (videos s) as [|v vs]; [done|].
    change (length (v :: vs) =? 0)%nat with false. cbv iota.
    split; [done|]. intros items Hin. unfold indicesToDelete.
    rewrite bool_decide_eq_true_2; [done|].
    pose proof (length_omap_lt
      (λ index, let idx := js_pred index in
                if in_range (length (v :: vs)) idx then idx else None)
      items None Hin eq_refl) as Hlt.
    intros Heq. apply (Nat.lt_irrefl (length items)).
    rewrite <- Heq at 1. exact Hlt.
Qed.

Lemma removeAt_accepts_NaN_witness :
  deletevideo admin_ctx true None five_videos =
    emit (Reply MediaDeleted)
      (saveVideos (set_videos (drop 1 (videos five_videos)) five_videos)) ∧
  deleteimage admin_ctx true None five_videos =
    emit (Reply MediaDeleted)
      (saveImages (set_images (drop 1 (images five_videos)) five_videos)) ∧
  (videos five_videos ≠ [] →
     deletevideos admin_ctx (NumberText None) five_videos
       = emit (Reply InvalidIndex) five_videos ∧
     ∀ items, None ∈ items →
       deletevideos admin_ctx (ListText items) five_videos
         = emit (Reply InvalidIndices) five_videos).
Proof. apply (removeAt_accepts_NaN admin_ctx five_videos). reflexivity. Defined.

(** X15.  Whoever is not the admin cannot touch the pools: each of the six
    adding and deleting handlers answers with its refusal and changes
    nothing else. *)
Theorem only_admin_changes_pools (o : op) (ctx : context) (s : state) :
  admin_only o = Some ctx →
  isAdmin ctx = false →
  ∃ r, r ∈ [OnlyAdminVideos; OnlyAdminImages; NotAuthorized] ∧
       step o s = emit (Reply r) s.
Proof.
  intros Ho Hadmin.
  destruct o; simpl in Ho; try done; injection Ho as ->; simpl;
    unfold on_video, on_photo, deletevideo, deleteimage, deletevideos, deleteimages;
    rewrite Hadmin; simpl.
  - exists OnlyAdminVideos. split; [by left|done].
  - exists OnlyAdminImages. split; [right; by left|done].
  - exists NotAuthorized. split; [right; right; by left|done].
  - exists NotAuthorized. split; [right; right; by left|done].
  - exists NotAuthorized. split; [right; right; by left|done].
  - exists NotAuthorized. split; [right; right; by left|done].
Qed.

Lemma only_admin_changes_pools_witness :
  ∃ r, r ∈ [OnlyAdminVideos; OnlyAdminImages; NotAuthorized] ∧
       step (DeleteVideos group_chat1 (RangeText true (Some 1) (Some 5))) five_videos
         = emit (Reply r) five_videos.
Proof.
  apply (only_admin_changes_pools
           (DeleteVideos group_chat1 (RangeText true (Some 1) (Some 5)))
           group_chat1 five_videos); reflexivity.
Defined.

(** X16.  Range deletion.  For the admin, /deletevideos a-b with
    1 <= a <= b <= length removes exactly the entries numbered a to b: the
    pool becomes its first a - 1 entries followed by those after the b-th,
    b - a + 1 entries shorter, the file holds it and the reply counts
    b - a + 1. *)
Theorem range_delete_cuts_interval (ctx : context) (s : state) (a b : Z) :
  isAdmin ctx = true →
  1 ≤ a → a ≤ b → b ≤ Z.of_nat (length (videos s)) →
  let s' := deletevideos ctx (RangeText true (Some a) (Some b)) s in
  videos s' = take (Z.to_nat (a - 1)) (videos s) ++ drop (Z.to_nat b) (videos s) ∧
  length (videos s') = (length (videos s) - Z.to_nat (b - a + 1))%nat ∧
  videosFile s' = fields <$> videos s' ∧
  last (log s') = Some (Reply (DeletedCount (Z.to_nat (b - a + 1)))).
Proof.
  intros Hadmin H1 Hle Hlen s'.
  assert (videos s ≠ []) as Hne by (destruct (videos s); [simpl in Hlen; lia|done]).
  destruct (delete_many_requested (RangeText true (Some a) (Some b))
              (videos s) (seqZ (a - 1) (b - a + 1)) Hne) as [_ Hdel].
  { simpl. destruct (a <=? b) eqn:Hfl; [done|lia]. }
  assert (keep_unlisted (seqZ (a - 1) (b - a + 1)) (videos s)
          = take (Z.to_nat (a - 1)) (videos s) ++ drop (Z.to_nat b) (videos s))
    as Hkeep.
  { unfold keep_unlisted.
    pose proof (keep_outside_range (Z.to_nat (a - 1)) (Z.to_nat b)
                  (videos s) 0 ltac:(lia)) as Hk.
    rewrite !Nat.sub_0_r, !Z2Nat.id in Hk by lia.
    by replace (b - (a - 1)) with (b - a + 1) in Hk by lia. }
  assert (s' = emit (Reply (DeletedCount (Z.to_nat (b - a + 1))))
                 (saveVideos (set_videos
                    (take (Z.to_nat (a - 1)) (videos s)
                       ++ drop (Z.to_nat b) (videos s)) s))) as ->.
  { subst s'. unfold deletevideos. rewrite Hadmin, Hdel, Hkeep; cbn [negb].
    - rewrite length_fmap. do 3 f_equal. unfold sort_descending.
      rewrite (Permutation_length (merge_sort_Permutation _ _)).
      by rewrite length_seqZ.
    - apply Forall_seqZ. lia.
    - apply NoDup_seqZ. }
  simpl. split; [done|]. split; [|split; [done|apply last_snoc]].
  rewrite length_app, length_take, length_drop. lia.
Qed.

Lemma range_delete_cuts_interval_witness :
  let s := five_videos in
  let s' := deletevideos admin_ctx (RangeText true (Some 2) (Some 4)) s in
  videos s' = take (Z.to_nat (2 - 1)) (videos s) ++ drop (Z.to_nat 4) (videos s) ∧
  length (videos s') = (length (videos s) - Z.to_nat (4 - 2 + 1))%nat ∧
  videosFile s' = fields <$> videos s' ∧
  last (log s') = Some (Reply (DeletedCount (Z.to_nat (4 - 2 + 1)))).
Proof.
  apply (range_delete_cuts_interval admin_ctx five_videos 2 4).
  - reflexivity.
  - lia.
  - lia.
  - simpl. lia.
Defined.

Section listing.
Implicit Types (s : state) (pool : list mediaObj).

Lemma keep_unlisted_one {A} (k : nat) (pool : list A) :
  keep_unlisted [Z.of_nat k] pool = delete k pool.
Proof.
  unfold keep_unlisted.
  pose proof (keep_outside_range k (S k) pool 0 ltac:(lia)) as Hk.
  rewrite !Nat.sub_0_r in Hk.
  replace (Z.of_nat (S k) - Z.of_nat k) with 1 in Hk by lia.
  assert (seqZ (Z.of_nat k) 1 = [Z.of_nat k]) as Hone
    by (unfold seqZ; simpl; f_equal; lia).
  rewrite Hone in Hk. rewrite Hk. symmetry. apply delete_take_drop.
Qed.

Lemma rows_lookup pool (k : nat) v :
  pool !! k = Some v →
  rows pool !! k =
    Some (Row (k + 1) (addedAt (fields v))
            (if decide (caption (fields v) = EmptyString) then None
             else Some (caption (fields v))) k).
Proof. intros Hk. unfold rows. by rewrite list_lookup_imap, Hk. Qed.
End listing.

(** X17.  The numbers shown are the numbers that delete.  For the admin,
    /listvideos lists one row per entry in pool order, row k numbered
    k + 1 with delete link k; the link index given to /deletevideo and the
    shown number given to /deletevideos both remove exactly that entry. *)
Theorem listed_numbers_delete_their_entry
    (ctx : context) (s : state) (k : nat) (v : mediaObj) :
  isAdmin ctx = true →
  videos s !! k = Some v →
  ∃ entries entry,
    listvideos ctx s = Listed entries ∧
    length entries = length (videos s) ∧
    entries !! k = Some entry ∧
    row_number entry = (k + 1)%nat ∧
    row_added entry = addedAt (fields v) ∧
    videos (deletevideo ctx true (Some (Z.of_nat (row_delete_link entry))) s)
      = delete k (videos s) ∧
    videos (deletevideos ctx (NumberText (Some (Z.of_nat (row_number entry)))) s)
      = delete k (videos s).
Proof.
  intros Hadmin Hk.
  assert (k < length (videos s))%nat as Hlt by (by eapply lookup_lt_Some).
  assert (videos s ≠ []) as Hne by (destruct (videos s); [simpl in Hlt; lia|done]).
  exists (rows (videos s)), (Row (k + 1) (addedAt (fields v))
            (if decide (caption (fields v) = EmptyString) then None
             else Some (caption (fields v))) k).
  split; [|split; [|split; [|split; [done|split; [done|split]]]]].
  - unfold listvideos. rewrite Hadmin. cbn [negb].
    destruct (length (videos s) =? 0)%nat eqn:Hz; [|done].
    apply Nat.eqb_eq in Hz. lia.
  - unfold rows. apply length_imap.
  - by apply rows_lookup.
  - cbn [row_delete_link]. unfold deletevideo.
    rewrite Hadmin, delete_one_in_range by lia. simpl. by rewrite Nat2Z.id.
  - cbn [row_number].
    destruct (delete_many_requested (NumberText (Some (Z.of_nat (k + 1))))
                (videos s) [Z.of_nat k] Hne) as [_ Hdel].
    { simpl. do 2 f_equal. lia. }
    unfold deletevideos. rewrite Hadmin, Hdel; cbn [negb].
    + simpl. apply keep_unlisted_one.
    + constructor; [lia|done].
    + apply NoDup_singleton.
Qed.

Lemma listed_numbers_delete_their_entry_witness :
  ∃ entries entry,
    listvideos admin_ctx five_videos = Listed entries ∧
    length entries = length (videos five_videos) ∧
    entries !! 2%nat = Some entry ∧
    row_number entry = (2 + 1)%nat ∧
    row_added entry = addedAt (fields (Obj 2 (Media "v2" "video" "two" (jan "03")))) ∧
    videos (deletevideo admin_ctx true (Some (Z.of_nat (row_delete_link entry)))
              five_videos)
      = delete 2%nat (videos five_videos) ∧
    videos (deletevideos admin_ctx (NumberText (Some (Z.of_nat (row_number entry))))
              five_videos)
      = delete 2%nat (videos five_videos).
Proof.
  apply (listed_numbers_delete_their_entry admin_ctx five_videos 2
           (Obj 2 (Media "v2" "video" "two" (jan "03")))).
  - reflexivity.
  - reflexivity.
Defined.

Section ids.
Implicit Types (s : state) (pool : list mediaObj).

Lemma ids_sublist pool pool' :
  pool' `sublist_of` pool →
  NoDup (media_id ∘ fields <$> pool) → NoDup (media_id ∘ fields <$> pool').
Proof. intros Hsub Hnd. eapply sublist_NoDup; [done|]. by apply fmap_sublist. Qed.

Lemma ids_snoc pool ref o :
  list_find (λ x, media_id (fields x) = ref) pool = None →
  media_id (fields o) = ref →
  NoDup (media_id ∘ fields <$> pool) → NoDup (media_id ∘ fields <$> pool ++ [o]).
Proof.
  intros Hfind Ho Hnd. rewrite fmap_app. apply NoDup_app.
  split; [done|]. split; [|apply NoDup_singleton].
  intros i (x & -> & Hx)%list_elem_of_fmap Hin%list_elem_of_singleton.
  apply list_find_None in Hfind. rewrite Forall_forall in Hfind.
  apply (Hfind x Hx). simpl in *. congruence.
Qed.

Lemma unique_ids_frame s s' :
  videos s' = videos s → images s' = images s → unique_ids s → unique_ids s'.
Proof. unfold unique_ids. by intros -> ->. Qed.

Lemma step_unique o s : unique_ids s → unique_ids (step o s).
Proof.
  intros [Hv Hi]. destruct o; simpl.
  - unfold on_video, new_object. repeat case_match; try done.
    split; [|done]. simpl. by eapply ids_snoc.
  - unfold on_photo, new_object. repeat case_match; try done.
    split; [done|]. simpl. by eapply ids_snoc.
  - unfold deletevideo. repeat case_match; try done.
    split; [|done]. simpl. eapply (ids_sublist (videos s)); [|done].
    by eapply delete_one_sublist.
  - unfold deleteimage. repeat case_match; try done.
    split; [done|]. simpl. eapply (ids_sublist (images s)); [|done].
    by eapply delete_one_sublist.
  - unfold deletevideos. repeat case_match; try done.
    split; [|done]. simpl. eapply (ids_sublist (videos s)); [|done].
    by eapply delete_many_sublist.
  - unfold deleteimages. repeat case_match; try done.
    split; [done|]. simpl. eapply (ids_sublist (images s)); [|done].
    by eapply delete_many_sublist.
  - unfold schedule_command. by repeat case_match.
  - unfold on_action. by repeat case_match.
  - unfold on_text, createScheduledJob. by repeat case_match.
  - unfold stop. by repeat case_match.
  - unfold elapse_minute.
    destruct (run_due_untouched minute rnd (jobs s) 0%nat s) as (Hv' & _ & Hi' & _).
    unfold unique_ids. by rewrite Hv', Hi'.
Qed.

(** A pool that does not hold [ref] yet gets the new object at its end,
    where [findIndex] then finds it. *)
Lemma find_added pool ref o :
  list_find (λ x, media_id (fields x) = ref) pool = None →
  media_id (fields o) = ref →
  list_find (λ x, media_id (fields x) = ref) (pool ++ [o]) = Some (length pool, o).
Proof.
  intros Hfind Ho. apply list_find_Some. split; [|split; [done|]].
  - by rewrite lookup_app_r, Nat.sub_diag by lia.
  - intros j y Hj Hlt. rewrite lookup_app_l in Hj by done.
    apply list_find_None in Hfind. rewrite Forall_forall in Hfind.
    apply Hfind. by eapply list_elem_of_lookup_2.
Qed.
End ids.

(** X18.  If no file id occurs twice in either pool file read at start, no
    reachable state holds a file id twice in a pool. *)
Theorem ids_stay_unique
    (clock : string → string) (vj ij : list media)
    (sj : gmap string schedule_entry) (ops : list op) :
  NoDup (media_id <$> vj) →
  NoDup (media_id <$> ij) →
  unique_ids (run ops (startup clock vj ij sj)).
Proof.
  intros Hv Hi.
  assert (unique_ids (startup clock vj ij sj)) as Hstart.
  { destruct (rearm_leaves_pools clock (map_to_list sj).*1 (load vj ij sj))
      as (Hv' & Hi' & _).
    unfold unique_ids, startup. rewrite Hv', Hi'. simpl.
    rewrite !list_fmap_compose.
    by rewrite (fields_imap (λ i, i)), (fields_imap (λ i, (length vj + i)%nat)). }
  revert Hstart. generalize (startup clock vj ij sj). unfold run.
  induction ops as [|o ops IH]; intros s Hs; simpl; [done|].
  by apply IH, step_unique.
Qed.

Lemma ids_stay_unique_witness :
  unique_ids
    (run [OnVideo admin_ctx "B" None (jan "08"); OnVideo admin_ctx "D" None (jan "09");
          DeleteVideo admin_ctx true (Some 0); OnVideo admin_ctx "D" None (jan "10")]
       (startup june_clock (fields <$> [itemA; itemB; itemC]) [] stored_chat1)).
Proof.
  apply (ids_stay_unique june_clock (fields <$> [itemA; itemB; itemC]) []
           stored_chat1).
  - apply (bool_decide_unpack _). vm_compute. reflexivity.
  - apply NoDup_nil_2.
Defined.

(** X19.  Add, add again, delete, add.  After the admin adds a new file id,
    adding it again is answered with the time of the first addition and
    changes nothing; deleting the last position restores the pool and its
    file; after that the same id is accepted again, as a new object. *)
Theorem add_delete_add
    (ctx : context) (ref : string) (cap : option string) (now : string)
    (cap2 : option string) (now2 : string) (s : state) :
  isAdmin ctx = true →
  ref ∉ media_id ∘ fields <$> videos s →
  let s1 := on_video ctx ref cap now s in
  let s2 := deletevideo ctx true (Some (Z.of_nat (length (videos s)))) s1 in
  on_video ctx ref cap2 now2 s1 = emit (Reply (VideoExists now)) s1 ∧
  videos s2 = videos s ∧
  videosFile s2 = fields <$> videos s ∧
  videos (on_video ctx ref cap2 now2 s2) =
    videos s ++ [Obj (S (next_addr s)) (Media ref "video" (default EmptyString cap2) now2)].
Proof.
  intros Hadmin Hnew s1 s2.
  pose proof (find_by_id_None (videos s) ref Hnew) as Hfind.
  set (o := Obj (next_addr s) (Media ref "video" (default EmptyString cap) now)).
  assert (s1 = emit (Reply VideoAdded)
                 (saveVideos (set_videos (videos s ++ [o])
                                (set_next_addr (S (next_addr s)) s)))) as Hs1.
  { subst s1. unfold on_video. by rewrite Hadmin, Hfind. }
  assert (videos s1 = videos s ++ [o]) as Hv1 by (by rewrite Hs1).
  assert (next_addr s1 = S (next_addr s)) as Hn1 by (by rewrite Hs1).
  assert (s2 = emit (Reply MediaDeleted) (saveVideos (set_videos (videos s) s1)))
    as Hs2.
  { subst s2. unfold deletevideo. rewrite Hadmin, delete_one_in_range.
    - rewrite Hv1, Nat2Z.id.
      by rewrite (delete_middle (videos s) [] o), app_nil_r.
    - rewrite Hv1, length_app. simpl. lia. }
  split; [|split; [|split]].
  - unfold on_video at 1. rewrite Hadmin, Hv1. cbn [negb].
    by rewrite (find_added (videos s) ref o Hfind eq_refl).
  - by rewrite Hs2.
  - by rewrite Hs2.
  - unfold on_video. rewrite Hadmin. cbn [negb].
    assert (videos s2 = videos s) as -> by (by rewrite Hs2).
    rewrite Hfind. unfold new_object.
    assert (next_addr s2 = S (next_addr s)) as -> by (by rewrite Hs2).
    simpl. by rewrite Hs2.
Qed.

Lemma add_delete_add_witness :
  let s := five_videos in
  let s1 := on_video admin_ctx "v5" (Some "five") (jan "06") s in
  let s2 := deletevideo admin_ctx true (Some (Z.of_nat (length (videos s)))) s1 in
  on_video admin_ctx "v5" None (jan "07") s1 = emit (Reply (VideoExists (jan "06"))) s1 ∧
  videos s2 = videos s ∧
  videosFile s2 = fields <$> videos s ∧
  videos (on_video admin_ctx "v5" None (jan "07") s2) =
    videos s ++ [Obj (S (next_addr s))
                   (Media "v5" "video" (default EmptyString None) (jan "07"))].
Proof.
  apply (add_delete_add admin_ctx "v5" (Some "five") (jan "06") None (jan "07")
           five_videos).
  - reflexivity.
  - apply (bool_decide_unpack _). vm_compute. reflexivity.
Defined.
